(** * go-curator: the work-distribution recipe (plugin: Work, Worker, WorkerList)

    A shallow embedding of [Worker.ShiftWork], [Worker.UnshiftWork],
    [NewWork], [NewWorker] and the [WorkerList] registry, over a model of the
    child cache they drive and of the node store behind it; and of the
    client's [CreatePath] and [WaitToExist], over the two calls of the
    zookeeper connection they make.

    Conventions.
    - A Go [int] is a [Z]; a slice is a [list]; [len] is [go_len].
    - A call that can end in a run-time panic (an index or slice expression
      out of range) returns an [outcome].
    - A [*ChildCache] reached through a worker is mutated in place by the Go
      code; here every operation returns the updated cache (worker).
    - The zookeeper connection behind a [*Client] is shared, external state:
      it is threaded through every call as a [Client S], together with the
      history of the store calls issued so far.
    - The mutexes are left out: the model is sequential. *)

From Stdlib Require Import ZArith List String Bool Lia.
Import ListNotations.
Open Scope string_scope.
Open Scope list_scope.
Open Scope Z_scope.

Set Implicit Arguments.

(* ------------------------------------------------------------------ *)
(** * Go run-time: outcomes, slice and index expressions *)

Inductive outcome (A : Type) : Type :=
| Returned (a : A)
| Panicked.

Arguments Returned {A} a.
Arguments Panicked {A}.

Definition obind {A B : Type} (o : outcome A) (k : A -> outcome B) : outcome B :=
  match o with
  | Returned a => k a
  | Panicked => Panicked
  end.

Notation "x <- e ;; k" := (obind e (fun x => k))
  (at level 61, e at next level, right associativity).

(** [len(s)] *)
Definition go_len {A : Type} (s : list A) : Z := Z.of_nat (List.length s).

(** [s[i]]: panics unless [0 <= i < len(s)]. *)
Definition go_index {A : Type} (s : list A) (i : Z) : outcome A :=
  if (0 <=? i) && (i <? go_len s) then
    match nth_error s (Z.to_nat i) with
    | Some x => Returned x
    | None => Panicked
    end
  else Panicked.

(** [s[lo:hi]]: panics unless [0 <= lo <= hi <= cap(s)]. Every upper bound
    used below is at most [len(s)], so the capacity is taken to be the
    length. *)
Definition go_slice {A : Type} (s : list A) (lo hi : Z) : outcome (list A) :=
  if (0 <=? lo) && (lo <=? hi) && (hi <=? go_len s) then
    Returned (firstn (Z.to_nat (hi - lo)) (skipn (Z.to_nat lo) s))
  else Panicked.

(* ------------------------------------------------------------------ *)
(** * Node identity *)

(** Modelled from the spec: the [Znode] value type (its file is not part of
    the sources at hand). A path in the coordination namespace plus its
    opaque data payload; identity is by [Path]. *)
Record Znode : Type := { Path : string; Data : list Byte.byte }.

(** Modelled from the spec: [NewZnode(path)], a node identity for [path]
    with no payload yet. *)
Definition NewZnode (path : string) : Znode := {| Path := path; Data := [] |}.

(* ------------------------------------------------------------------ *)
(** * The node store capability and the client *)

(** Modelled from the spec: the kinds of store failure a cache mutator can
    surface ([StoreError{NodeExists|Disconnected|...}]). *)
Inductive StoreError : Type :=
| NodeExists
| Disconnected
| OtherStoreError.

(** Modelled from the spec: the creation flag of an ephemeral node
    ([zk.FlagEphemeral] of the zookeeper client library, where it is 1;
    0 is a persistent node). *)
Definition FlagEphemeral : Z := 1.

(** Modelled from the spec: the node store capability consumed by the child
    cache, [create(path, data, creationFlags) -> (path, error)] and
    [delete(path) -> error] (idempotent on "already absent", so absence is
    not an error here). [S] is the state of the remote store as seen through
    the connection. *)
Class NodeStore (S : Type) : Type := {
  store_create : string -> list Byte.byte -> Z -> S -> (StoreError + string) * S;
  store_delete : string -> S -> option StoreError * S
}.

(** A store call as issued by the cache, with its outcome
    ([None]: the call succeeded). *)
Inductive StoreOp : Type :=
| OpCreate (path : string) (flags : Z)
| OpDelete (path : string).

Record StoreCall : Type := { call_op : StoreOp; call_err : option StoreError }.

Definition call_ok (k : StoreCall) : Prop := call_err k = None.

(** The delete a [Children.Remove] of [v] issues, and the create a
    [Children.Add] of [v] issues under [flags]. *)
Definition delete_of (v : Znode) : StoreOp := OpDelete (Path v).
Definition create_of (flags : Z) (v : Znode) : StoreOp := OpCreate (Path v) flags.

(** Whether the history holds a failed delete for [v]'s path. *)
Definition is_delete_of (v : Znode) (op : StoreOp) : bool :=
  match op with
  | OpDelete p => String.eqb p (Path v)
  | OpCreate _ _ => false
  end.

Definition failed (k : StoreCall) : bool :=
  match call_err k with
  | Some _ => true
  | None => false
  end.

Definition removal_failed (history : list StoreCall) (v : Znode) : bool :=
  existsb (fun k => is_delete_of v (call_op k) && failed k) history.

(** The store's own [delete], asked for the path of each node in turn: the
    answers it gives, and the store it leaves. *)
Fixpoint delete_each {S : Type} `{NodeStore S} (nodes : list Znode) (s : S)
  : list (option StoreError) * S :=
  match nodes with
  | [] => ([], s)
  | v :: rest =>
      let '(err, s1) := store_delete (Path v) s in
      let '(errs, s2) := delete_each rest s1 in
      (err :: errs, s2)
  end.

(** [Client]: the connection, and the history of the calls issued through
    it, oldest first. *)
Record Client (S : Type) : Type := { Conn : S; Issued : list StoreCall }.

Definition issue {S : Type} (c : Client S) (conn' : S) (op : StoreOp)
  (err : option StoreError) : Client S :=
  {| Conn := conn'; Issued := Issued c ++ [{| call_op := op; call_err := err |}] |}.

(* ------------------------------------------------------------------ *)
(** * Child cache *)

Module ChildCache.

(** Modelled from the spec: the child cache (its file is not part of the
    sources at hand): the owning path, the creation flags applied to
    newly created children, and the ordered collection of the children
    currently known. *)
Record t : Type := {
  path : string;
  CreateFlags : Z;
  children : list Znode
}.

(** Modelled from the spec: [NewChildCache(client, path)], a cache bound
    to [path]; no store call is made, no child is known, the flags are
    Go's zero value. *)
Definition NewChildCache (path : string) : t :=
  {| path := path; CreateFlags := 0; children := [] |}.

(** Modelled from the spec: [Size()], the count of the local ordered set. *)
Definition Size (cc : t) : Z := go_len (children cc).

(** Modelled from the spec: [ToSlice()], an independent ordered copy of
    the local set. *)
Definition ToSlice (cc : t) : list Znode := children cc.

(** The entry matching [p] (by path) taken out of the ordered set, the
    others keeping their order. *)
Fixpoint remove_path (p : string) (l : list Znode) : list Znode :=
  match l with
  | [] => []
  | x :: rest => if String.eqb (Path x) p then rest else x :: remove_path p rest
  end.

Section WithStore.
Context {S : Type} `{NodeStore S}.

(** Modelled from the spec: [Add(node)] issues a create against the
    store with the cache's creation flags; on success the node is
    inserted at the end of the local set; on failure the local set is
    left as it was and the store error is returned. The spec also puts a
    constraint on the caller, that the node's path be a direct child name
    under the cache's root, and does not say what [Add] does with any
    other node: the model issues the create with the node's own path all
    the same, and no result below moves nodes from one cache to another. *)
Definition Add (cc : t) (node : Znode) (c : Client S)
  : option StoreError * t * Client S :=
  let '(r, conn') :=
    store_create (Path node) (Data node) (CreateFlags cc) (Conn c) in
  let op := OpCreate (Path node) (CreateFlags cc) in
  match r with
  | inr _ =>
      (None,
       {| path := path cc; CreateFlags := CreateFlags cc;
          children := children cc ++ [node] |},
       issue c conn' op None)
  | inl e => (Some e, cc, issue c conn' op (Some e))
  end.

(** Modelled from the spec: [Remove(node)] issues a delete against the
    store for [node]'s path; on success the matching entry (by path) is
    removed from the local set if present; on failure the local set is
    left as it was and the store error is returned. *)
Definition Remove (cc : t) (node : Znode) (c : Client S)
  : option StoreError * t * Client S :=
  let '(err, conn') := store_delete (Path node) (Conn c) in
  let op := OpDelete (Path node) in
  match err with
  | None =>
      (None,
       {| path := path cc; CreateFlags := CreateFlags cc;
          children := remove_path (Path node) (children cc) |},
       issue c conn' op None)
  | Some e => (Some e, cc, issue c conn' op (Some e))
  end.

(** Any sequence of calls of the two mutators on one cache. *)
Inductive Op : Type :=
| DoAdd (node : Znode)
| DoRemove (node : Znode).

Fixpoint run (cc : t) (ops : list Op) (c : Client S) : t * Client S :=
  match ops with
  | [] => (cc, c)
  | DoAdd node :: rest => let '(_, cc', c') := Add cc node c in run cc' rest c'
  | DoRemove node :: rest => let '(_, cc', c') := Remove cc node c in run cc' rest c'
  end.

(** [Remove] called for each node in turn, whatever the earlier calls
    gave: the cache and the client the calls leave. *)
Fixpoint Remove_each (cc : t) (nodes : list Znode) (c : Client S) : t * Client S :=
  match nodes with
  | [] => (cc, c)
  | v :: rest => let '(_, cc', c') := Remove cc v c in Remove_each cc' rest c'
  end.

End WithStore.

End ChildCache.

(* ------------------------------------------------------------------ *)
(** * Work *)

Module Work.

(** [type Work struct { Znode; Children *ChildCache }] *)
Record t : Type := { znode : Znode; Children : ChildCache.t }.

Definition Id (w : t) : string := Path (znode w).

Definition NewWork (path : string) : t :=
  let n := NewZnode path in
  let cc := ChildCache.NewChildCache path in
  let cc := {| ChildCache.path := ChildCache.path cc;
               ChildCache.CreateFlags := FlagEphemeral;
               ChildCache.children := ChildCache.children cc |} in
  {| znode := n; Children := cc |}.

End Work.

(* ------------------------------------------------------------------ *)
(** * Worker *)

Module Worker.

(** [type Worker struct { Znode; Children *ChildCache }] *)
Record t : Type := { znode : Znode; Children : ChildCache.t }.

Definition Id (w : t) : string := Path (znode w).

Definition NewWorker (path : string) : t :=
  let n := NewZnode path in
  let cc := ChildCache.NewChildCache path in
  let cc := {| ChildCache.path := ChildCache.path cc;
               ChildCache.CreateFlags := FlagEphemeral;
               ChildCache.children := ChildCache.children cc |} in
  {| znode := n; Children := cc |}.

(** The entries [ShiftWork(amount)] visits: the first [amount] of the
    cache's order inside the guard, none outside it. *)
Definition selection (w : t) (amount : Z) : list Znode :=
  if (ChildCache.Size (Children w) >=? amount) && (amount >? 0) then
    firstn (Z.to_nat amount) (ChildCache.children (Children w))
  else [].

Section WithStore.
Context {S : Type} `{NodeStore S}.

(** The body of [ShiftWork]'s [for _, v := range ...] loop, over the
    entries still to visit: the error of [Children.Remove] is looked at
    and dropped, and the node is appended to [removed] either way. *)
Fixpoint ShiftWork_loop (cc : ChildCache.t) (selected : list Znode)
  (removed : list Znode) (c : Client S)
  : list Znode * ChildCache.t * Client S :=
  match selected with
  | [] => (removed, cc, c)
  | v :: rest =>
      let newNode := v in
      let '(err, cc', c') := ChildCache.Remove cc newNode c in
      let _ := err in
      ShiftWork_loop cc' rest (removed ++ [newNode]) c'
  end.

Definition ShiftWork (w : t) (amount : Z) (c : Client S)
  : outcome (list Znode * t * Client S) :=
  let removed := @nil Znode in
  let size := ChildCache.Size (Children w) in
  if (size >=? amount) && (amount >? 0) then
    selected <- go_slice (ChildCache.ToSlice (Children w)) 0 amount ;;
    let '(removed, cc, c') := ShiftWork_loop (Children w) selected removed c in
    Returned (removed, {| znode := znode w; Children := cc |}, c')
  else Returned (removed, w, c).

(** The body of [UnshiftWork]'s loop: the error of [Children.Add] is
    looked at and dropped. *)
Fixpoint UnshiftWork_loop (cc : ChildCache.t) (nodes : list Znode)
  (c : Client S) : ChildCache.t * Client S :=
  match nodes with
  | [] => (cc, c)
  | n :: rest =>
      let newNode := n in
      let '(err, cc', c') := ChildCache.Add cc newNode c in
      let _ := err in
      UnshiftWork_loop cc' rest c'
  end.

(** [UnshiftWork] has no result: only the updated worker and client
    come back. *)
Definition UnshiftWork (w : t) (nodes : list Znode) (c : Client S)
  : t * Client S :=
  let '(cc, c') := UnshiftWork_loop (Children w) nodes c in
  ({| znode := znode w; Children := cc |}, c').

(** Whether a call was refused: [ShiftWork] has no error result, so a
    panic is the only way it could reject its input. *)
Definition rejected (o : outcome (list Znode * t * Client S)) : bool :=
  match o with
  | Panicked => true
  | Returned _ => false
  end.

(** What the caller of [ShiftWork] gets back: the slice alone. *)
Definition returned (o : outcome (list Znode * t * Client S))
  : outcome (list Znode) :=
  r <- o ;; Returned (fst (fst r)).

End WithStore.

End Worker.

(* ------------------------------------------------------------------ *)
(** * Worker registry *)

Module WorkerList.

(** [type WorkerList struct { mutex *sync.Mutex; workers []*Worker }];
    the entries are the workers pointed to (no nil entry). *)
Record t : Type := { workers : list Worker.t }.

Definition NewWorkerList : t := {| workers := [] |}.

(** The loop of [IndexOf]: it does not stop at a match, so the index kept
    is that of the last one. *)
Fixpoint IndexOf_loop (ws : list Worker.t) (i : Z) (worker : Worker.t)
  (index : option Z) : option Z :=
  match ws with
  | [] => index
  | v :: rest =>
      IndexOf_loop rest (i + 1) worker
        (if String.eqb (Worker.Id v) (Worker.Id worker) then Some i else index)
  end.

(** [v] has the identity of [worker]: the test of [IndexOf]'s loop. *)
Definition same_id (worker v : Worker.t) : Prop := Worker.Id v = Worker.Id worker.

Definition IndexOf (l : t) (worker : Worker.t) : option Z :=
  IndexOf_loop (workers l) 0 worker None.

Definition Add (l : t) (worker : Worker.t) : t * bool :=
  match IndexOf l worker with
  | None => ({| workers := workers l ++ [worker] |}, true)
  | Some _ => (l, false)
  end.

Definition Remove (l : t) (worker : Worker.t) : outcome (t * bool) :=
  match IndexOf l worker with
  | Some i =>
      front <- go_slice (workers l) 0 i ;;
      back <- go_slice (workers l) (i + 1) (go_len (workers l)) ;;
      Returned ({| workers := front ++ back |}, true)
  | None => Returned (l, false)
  end.

Definition Size (l : t) : Z := go_len (workers l).

(** [At]: [nil] is [None]. *)
Definition At (l : t) (index : Z) : outcome (option Worker.t) :=
  if go_len (workers l) >? index then
    w <- go_index (workers l) index ;;
    Returned (Some w)
  else Returned None.

(** The copy loop shared by [Find] and [ToSlice]:
    [for _, v := range l.workers { workers = append(workers, v) }]. *)
Fixpoint copy_loop (ws : list Worker.t) (workers : list Worker.t) : list Worker.t :=
  match ws with
  | [] => workers
  | v :: rest => copy_loop rest (workers ++ [v])
  end.

(** The search loop of [Find] over the snapshot, from index [i]: it returns
    at the first entry the predicate accepts, and [(-1, nil)] after the
    last one. *)
Fixpoint Find_loop (f : Z -> Worker.t -> bool) (ws : list Worker.t) (i : Z)
  : Z * option Worker.t :=
  match ws with
  | [] => (-1, None)
  | v :: rest => if f i v then (i, Some v) else Find_loop f rest (i + 1)
  end.

Definition Find (l : t) (f : Z -> Worker.t -> bool) : Z * option Worker.t :=
  let workers := copy_loop (workers l) [] in
  Find_loop f workers 0.

(** The predicate [FindById] hands to [Find]. *)
Definition by_id (id : string) : Z -> Worker.t -> bool :=
  fun i w => if String.eqb (Worker.Id w) id then true else false.

Definition FindById (l : t) (id : string) : Z * option Worker.t :=
  Find l (by_id id).

Definition ToSlice (l : t) : list Worker.t := copy_loop (workers l) [].

(** The identities held by a registry, in order. *)
Definition ids (l : t) : list string := map Worker.Id (workers l).

End WorkerList.

(* ------------------------------------------------------------------ *)
(** * The registry with its entries as pointers *)

(** [IndexOf], [Add] and [Remove] once more, on [[]*Worker] as Go has it: an
    entry or an argument may be nil ([None]), and [Id()], which has a value
    receiver, panics when called through a nil pointer. *)
Module WorkerListPtr.

Record t : Type := { workers : list (option Worker.t) }.

Definition NewWorkerList : t := {| workers := [] |}.

(** [p.Id()] through the pointer [p]. *)
Definition Id (p : option Worker.t) : outcome string :=
  match p with
  | Some w => Returned (Worker.Id w)
  | None => Panicked
  end.

Fixpoint IndexOf_loop (ws : list (option Worker.t)) (i : Z) (worker : option Worker.t)
  (index : option Z) : outcome (option Z) :=
  match ws with
  | [] => Returned index
  | v :: rest =>
      a <- Id v ;;
      b <- Id worker ;;
      IndexOf_loop rest (i + 1) worker (if String.eqb a b then Some i else index)
  end.

Definition IndexOf (l : t) (worker : option Worker.t) : outcome (option Z) :=
  IndexOf_loop (workers l) 0 worker None.

Definition Add (l : t) (worker : option Worker.t) : outcome (t * bool) :=
  exists_ <- IndexOf l worker ;;
  match exists_ with
  | None => Returned ({| workers := workers l ++ [worker] |}, true)
  | Some _ => Returned (l, false)
  end.

Definition Remove (l : t) (worker : option Worker.t) : outcome (t * bool) :=
  exists_ <- IndexOf l worker ;;
  match exists_ with
  | Some i =>
      front <- go_slice (workers l) 0 i ;;
      back <- go_slice (workers l) (i + 1) (go_len (workers l)) ;;
      Returned ({| workers := front ++ back |}, true)
  | None => Returned (l, false)
  end.

(** Any sequence of calls of the two mutators on one registry, each with
    the pointer it is given. *)
Inductive Op : Type :=
| DoAdd (worker : option Worker.t)
| DoRemove (worker : option Worker.t).

Definition argument (op : Op) : option Worker.t :=
  match op with
  | DoAdd worker => worker
  | DoRemove worker => worker
  end.

Fixpoint run (l : t) (ops : list Op) : outcome t :=
  match ops with
  | [] => Returned l
  | DoAdd worker :: rest =>
      r <- Add l worker ;;
      run (fst r) rest
  | DoRemove worker :: rest =>
      r <- Remove l worker ;;
      run (fst r) rest
  end.

(** A registry of workers seen as the registry of the pointers to them:
    no entry is nil. *)
Definition of_workers (l : WorkerList.t) : t :=
  {| workers := map Some (WorkerList.workers l) |}.

End WorkerListPtr.

(* ------------------------------------------------------------------ *)
(** * An in-memory node store *)

Module MemStore.

(** The nodes that exist, each with the flags it was created with; the
    paths on which the store refuses a change; whether the session is up. *)
Record t : Type := {
  nodes : list (string * Z);
  refused : list string;
  online : bool
}.

Definition has (p : string) (l : list string) : bool :=
  existsb (String.eqb p) l.

Definition create (p : string) (data : list Byte.byte) (flags : Z) (s : t)
  : (StoreError + string) * t :=
  if negb (online s) then (inl Disconnected, s)
  else if has p (map fst (nodes s)) then (inl NodeExists, s)
  else if has p (refused s) then (inl OtherStoreError, s)
  else (inr p, {| nodes := nodes s ++ [(p, flags)];
                  refused := refused s; online := online s |}).

Definition delete (p : string) (s : t) : option StoreError * t :=
  if negb (online s) then (Some Disconnected, s)
  else if has p (refused s) then (Some OtherStoreError, s)
  else (None, {| nodes := filter (fun e => negb (String.eqb (fst e) p)) (nodes s);
                 refused := refused s; online := online s |}).

#[global] Instance store : NodeStore t :=
  {| store_create := create; store_delete := delete |}.

Definition connect (s : t) : Client t := {| Conn := s; Issued := [] |}.

End MemStore.

(* ------------------------------------------------------------------ *)
(** * A worker with three assigned work items *)

Module Scenario.

Definition work (name : string) : Znode :=
  {| Path := "/workers/w1/" ++ name; Data := [] |}.

Definition work1 : Znode := work "work-1".
Definition work2 : Znode := work "work-2".
Definition work3 : Znode := work "work-3".

(** The worker at [/workers/w1] once its cache has seen the three
    children. *)
Definition w1 : Worker.t :=
  let w := Worker.NewWorker "/workers/w1" in
  {| Worker.znode := Worker.znode w;
     Worker.Children :=
       {| ChildCache.path := ChildCache.path (Worker.Children w);
          ChildCache.CreateFlags := ChildCache.CreateFlags (Worker.Children w);
          ChildCache.children := [work1; work2; work3] |} |}.

(** A store holding the three children, every call succeeding. *)
Definition healthy : MemStore.t :=
  {| MemStore.nodes := [(Path work1, FlagEphemeral); (Path work2, FlagEphemeral);
                        (Path work3, FlagEphemeral)];
     MemStore.refused := [];
     MemStore.online := true |}.

(** The same store refusing any change to [work-1]. *)
Definition stuck : MemStore.t :=
  {| MemStore.nodes := MemStore.nodes healthy;
     MemStore.refused := [Path work1];
     MemStore.online := true |}.

(** The same store with the session lost. *)
Definition offline : MemStore.t :=
  {| MemStore.nodes := MemStore.nodes healthy;
     MemStore.refused := [];
     MemStore.online := false |}.

Definition worker (name : string) : Worker.t := Worker.NewWorker ("/workers/" ++ name).

Definition registry : WorkerList.t :=
  {| WorkerList.workers := [worker "w1"; worker "w2"; worker "w3"] |}.

End Scenario.

(* ------------------------------------------------------------------ *)
(** * Go's [strings] package, as far as [CreatePath] uses it *)

Module strings.

(** [strings.HasPrefix(s, prefix)] *)
Definition HasPrefix (s prefix : string) : bool := String.prefix prefix s.

(** [strings.Split(s, sep)] for a separator of one byte: the pieces of [s]
    between the separators, [[""]] for the empty string. *)
Fixpoint Split (s : string) (sep : Ascii.ascii) : list string :=
  match s with
  | EmptyString => [EmptyString]
  | String ch rest =>
      if Ascii.eqb ch sep then EmptyString :: Split rest sep
      else match Split rest sep with
           | [] => [String ch EmptyString]
           | piece :: pieces => String ch piece :: pieces
           end
  end.

(** The byte of ["/"], the one separator the client splits on. *)
Definition slash : Ascii.ascii :=
  Ascii.Ascii true true true true false true false false.

(** [strings.Join(elems, sep)] *)
Definition Join (elems : list string) (sep : string) : string :=
  String.concat sep elems.

End strings.

(* ------------------------------------------------------------------ *)
(** * The client: [CreatePath] and [WaitToExist] *)

Module Curator.

(** A Go [error] as the client returns it: one of the package's two error
    values, or an error of the zookeeper connection passed on as it came. *)
Inductive error : Type :=
| ErrConnectionTimedOut
| ErrInvalidPath
| ErrConn (e : StoreError).

(** [zk.ACL] *)
Record ACL : Type := { Perms : Z; Scheme : string; ID : string }.

(** The two calls of the embedded [*zk.Conn] the client makes:
    [Exists(path) (bool, *Stat, error)] and
    [Create(path, data, flags, acl) (string, error)], without the results
    the client discards. [S] is the state of the remote store. *)
Class ZkConn (S : Type) : Type := {
  conn_Exists : string -> S -> bool * option error * S;
  conn_Create : string -> list Byte.byte -> Z -> list ACL -> S -> option error * S
}.

(** A call made through the connection, with what it answered. *)
Inductive Call : Type :=
| CallExists (path : string) (found : bool) (err : option error)
| CallCreate (path : string) (data : list Byte.byte) (flags : Z) (acl : list ACL)
    (err : option error).

(** [type Client struct { *zk.Conn; mutex *sync.RWMutex }]: the connection,
    and the calls made through it so far, oldest first. *)
Record Client (S : Type) : Type := { zk : S; calls : list Call }.

(** The error a call answered with. *)
Definition call_error (k : Call) : option error :=
  match k with
  | CallExists _ _ err => err
  | CallCreate _ _ _ _ err => err
  end.

(** The paths probed by the [Exists] calls of a history, in order. *)
Fixpoint probed (ks : list Call) : list string :=
  match ks with
  | [] => []
  | CallExists p _ _ :: rest => p :: probed rest
  | CallCreate _ _ _ _ _ :: rest => probed rest
  end.

Definition is_create (k : Call) : bool :=
  match k with
  | CallCreate _ _ _ _ _ => true
  | CallExists _ _ _ => false
  end.

(** A probe of [path] that did not see the node: it failed, or it answered
    "absent". *)
Definition is_miss (path : string) (k : Call) : Prop :=
  exists found err, k = CallExists path found err /\ (err <> None \/ found = false).

(** The node paths [CreatePath] goes through for the pieces still to visit,
    [slice] being the pieces already joined. *)
Fixpoint paths_from (slice : list string) (segments : list string) : list string :=
  match segments with
  | [] => []
  | seg :: rest =>
      ("/" ++ strings.Join (slice ++ [seg]) "/")%string :: paths_from (slice ++ [seg]) rest
  end.

(** The node paths of [path], outermost first: what [CreatePath] makes
    sure exists. *)
Definition ancestors (path : string) : list string :=
  paths_from [] (tl (strings.Split path strings.slash)).

(** The histories [CreatePath] can leave for a list of node paths, with
    the error it returns: a node seen is skipped, a node seen absent is
    created (no flags, the caller's data and acl), and the first call that
    fails ends the run with its error. *)
Inductive protocol (data : list Byte.byte) (acl : list ACL)
  : list string -> list Call -> option error -> Prop :=
| protocol_done : protocol data acl [] [] None
| protocol_seen p ps ks r :
    protocol data acl ps ks r ->
    protocol data acl (p :: ps) (CallExists p true None :: ks) r
| protocol_made p ps ks r :
    protocol data acl ps ks r ->
    protocol data acl (p :: ps)
      (CallExists p false None :: CallCreate p data 0 acl None :: ks) r
| protocol_probe_failed p ps found e :
    protocol data acl (p :: ps) [CallExists p found (Some e)] (Some e)
| protocol_create_failed p ps e :
    protocol data acl (p :: ps)
      [CallExists p false None; CallCreate p data 0 acl (Some e)] (Some e).

Section WithConn.
Context {S : Type} `{ZkConn S}.

Definition Exists (path : string) (c : Client S) : bool * option error * Client S :=
  let '(found, err, s') := conn_Exists path (zk c) in
  (found, err, {| zk := s'; calls := calls c ++ [CallExists path found err] |}).

Definition Create (path : string) (data : list Byte.byte) (flags : Z)
  (acl : list ACL) (c : Client S) : option error * Client S :=
  let '(err, s') := conn_Create path data flags acl (zk c) in
  (err, {| zk := s'; calls := calls c ++ [CallCreate path data flags acl err] |}).

(** The body of [CreatePath]'s [for i := range segments] loop, over the
    pieces still to visit. *)
Fixpoint CreatePath_loop (segments : list string) (slice : list string)
  (data : list Byte.byte) (acl : list ACL) (c : Client S)
  : option error * Client S :=
  match segments with
  | [] => (None, c)
  | seg :: rest =>
      let slice := slice ++ [seg] in
      let segment := ("/" ++ strings.Join slice "/")%string in
      let '(exists_, err, c1) := Exists segment c in
      match err with
      | Some e => (Some e, c1)
      | None =>
          if Bool.eqb exists_ true then CreatePath_loop rest slice data acl c1
          else
            let '(err, c2) := Create segment data 0 acl c1 in
            match err with
            | Some e => (Some e, c2)
            | None => CreatePath_loop rest slice data acl c2
            end
      end
  end.

Definition CreatePath (path : string) (data : list Byte.byte) (acl : list ACL)
  (c : Client S) : outcome (option error * Client S) :=
  if negb (strings.HasPrefix path "/") then Returned (Some ErrInvalidPath, c)
  else
    let segments := strings.Split path strings.slash in
    segments <- go_slice segments 1 (go_len segments) ;;
    Returned (CreatePath_loop segments [] data acl c).

(** The closure [operation] of [WaitToExist], on the client and the
    closure's [retryCount] (the trace print is left out). *)
Definition operation (path : string) (st : Client S * Z)
  : option error * (Client S * Z) :=
  let '(c, retryCount) := st in
  let '(exists_, err, c') := Exists path c in
  let err :=
    match err with
    | None => if negb exists_ then Some ErrInvalidPath else None
    | Some e => Some e
    end in
  (err, (c', retryCount + 1)).

(** [backoff.Retry(operation, b)]: the operation is run until it returns
    nil or the back-off policy answers Stop, and its last error comes back.
    [grants] is the number of times the policy, which goes by the clock and
    by [maxWaitTime], allows one more try before it stops. *)
Fixpoint Retry {St : Type} (operation : St -> option error * St) (grants : nat)
  (st : St) : option error * St :=
  let '(err, st') := operation st in
  match err with
  | None => (None, st')
  | Some e =>
      match grants with
      | O => (Some e, st')
      | Datatypes.S g => Retry operation g st'
      end
  end.

(** [WaitToExist]: the named result [err] is never assigned (the closure
    declares an [err] of its own, and what [backoff.Retry] returns is
    dropped), so it is returned as it started, nil. *)
Definition WaitToExist (path : string) (grants : nat) (c : Client S)
  : option error * Client S :=
  let err := @None error in
  let retryCount := 0 in
  let '(_, (c', _)) := Retry (operation path) grants (c, retryCount) in
  (err, c').

End WithConn.

(** A store seen through what it holds and whether the session is up.
    While the session is up, [Exists] answers what the store holds and
    changes nothing. *)
Definition truthful_Exists {S : Type} `{ZkConn S}
  (up : S -> bool) (holds : S -> string -> bool) : Prop :=
  forall p s, up s = true -> conn_Exists p s = (holds s p, None, s).

(** The path of the node named by [pieces], outermost name first. *)
Definition node_path (pieces : list string) : string :=
  ("/" ++ strings.Join pieces "/")%string.

Fixpoint contains (ch : Ascii.ascii) (s : string) : bool :=
  match s with
  | EmptyString => false
  | String c rest => Ascii.eqb c ch || contains ch rest
  end.

(** A node name: not empty, and no slash in it. *)
Definition name_ok (seg : string) : bool :=
  negb (String.eqb seg "") && negb (contains strings.slash seg).

(** A hierarchical store seen through what it holds and whether it is
    ready: the session is up and the nodes held take children. While
    ready, [Exists] of a node path made of proper names answers what the
    store holds and changes nothing. *)
Definition answers_nodes {S : Type} `{ZkConn S}
  (ready : S -> bool) (holds : S -> string -> bool) : Prop :=
  forall pieces s,
    ready s = true -> pieces <> [] -> forallb name_ok pieces = true ->
    conn_Exists (node_path pieces) s = (holds s (node_path pieces), None, s).

(** While ready, [Create] of an absent node with a proper name succeeds
    when the store holds its parent, or when the node sits right under the
    root; the store then holds it besides all it held, and is still ready.
    Nothing is asked of a [Create] whose parent is missing. *)
Definition accepts_children {S : Type} `{ZkConn S}
  (ready : S -> bool) (holds : S -> string -> bool) : Prop :=
  forall front name d f a s,
    ready s = true ->
    forallb name_ok (front ++ [name]) = true ->
    front = [] \/ holds s (node_path front) = true ->
    holds s (node_path (front ++ [name])) = false ->
    exists s', conn_Create (node_path (front ++ [name])) d f a s = (None, s') /\
               ready s' = true /\
               holds s' (node_path (front ++ [name])) = true /\
               forall q, holds s q = true -> holds s' q = true.

(** An in-memory store: the paths of the nodes that exist, and whether
    the session is up. *)
Module Mem.

Record t : Type := { paths : list string; up : bool }.

Definition holds (s : t) (p : string) : bool := existsb (String.eqb p) (paths s).

Definition mem_Exists (p : string) (s : t) : bool * option error * t :=
  if up s then (holds s p, None, s) else (false, Some (ErrConn Disconnected), s).

Definition mem_Create (p : string) (data : list Byte.byte) (flags : Z)
  (acl : list ACL) (s : t) : option error * t :=
  if up s then
    if holds s p then (Some (ErrConn NodeExists), s)
    else (None, {| paths := paths s ++ [p]; up := up s |})
  else (Some (ErrConn Disconnected), s).

#[global] Instance conn : ZkConn t :=
  {| conn_Exists := mem_Exists; conn_Create := mem_Create |}.

Definition connect (s : t) : Client t := {| zk := s; calls := [] |}.

End Mem.

(** An in-memory store that keeps the hierarchy, as zookeeper does: the
    root is always there, a path with an empty name in it is refused, and
    a node is created only under a parent that exists. *)
Module Tree.

Record t : Type := { nodes : list string; up : bool }.

Definition holds (s : t) (p : string) : bool := existsb (String.eqb p) (nodes s).

Definition pieces_of (p : string) : list string := tl (strings.Split p strings.slash).

Definition well_formed (p : string) : bool :=
  strings.HasPrefix p "/" &&
  forallb (fun seg => negb (String.eqb seg "")) (pieces_of p).

Definition parent_held (s : t) (p : string) : bool :=
  match removelast (pieces_of p) with
  | [] => true
  | front => holds s (node_path front)
  end.

Definition tree_Exists (p : string) (s : t) : bool * option error * t :=
  if up s then
    if String.eqb p "/" then (true, None, s)
    else if well_formed p then (holds s p, None, s)
    else (false, Some (ErrConn OtherStoreError), s)
  else (false, Some (ErrConn Disconnected), s).

Definition tree_Create (p : string) (data : list Byte.byte) (flags : Z)
  (acl : list ACL) (s : t) : option error * t :=
  if up s then
    if String.eqb p "/" then (Some (ErrConn NodeExists), s)
    else if negb (well_formed p) then (Some (ErrConn OtherStoreError), s)
    else if holds s p then (Some (ErrConn NodeExists), s)
    else if parent_held s p then (None, {| nodes := nodes s ++ [p]; up := up s |})
    else (Some (ErrConn OtherStoreError), s)
  else (Some (ErrConn Disconnected), s).

#[global] Instance conn : ZkConn t :=
  {| conn_Exists := tree_Exists; conn_Create := tree_Create |}.

Definition connect (s : t) : Client t := {| zk := s; calls := [] |}.

End Tree.

End Curator.

(* ------------------------------------------------------------------ *)
(** * Per-node outcomes of a redistribution *)

(** The nodes whose store call, at the same position of [calls], went
    through, and those whose call failed. *)
Fixpoint served (nodes : list Znode) (calls : list StoreCall) : list Znode :=
  match nodes, calls with
  | n :: ns, k :: ks => if failed k then served ns ks else n :: served ns ks
  | _, _ => []
  end.

Fixpoint unserved (nodes : list Znode) (calls : list StoreCall) : list Znode :=
  match nodes, calls with
  | n :: ns, k :: ks => if failed k then n :: unserved ns ks else unserved ns ks
  | _, _ => []
  end.

Unset Implicit Arguments.

(* ------------------------------------------------------------------ *)
(** * Slices and indices *)

Lemma go_len_nonneg {A : Type} (s : list A) : 0 <= go_len s.
Proof. unfold go_len. lia. Qed.

Lemma go_len_app {A : Type} (s1 s2 : list A) :
  go_len (s1 ++ s2) = go_len s1 + go_len s2.
Proof. unfold go_len. rewrite length_app. lia. Qed.

Lemma go_slice_prefix {A : Type} (s : list A) (hi : Z) :
  0 <= hi <= go_len s ->
  go_slice s 0 hi = Returned (firstn (Z.to_nat hi) s).
Proof.
  intros Hhi. unfold go_slice.
  replace ((0 <=? 0) && (0 <=? hi) && (hi <=? go_len s)) with true.
  - simpl. now rewrite Z.sub_0_r.
  - symmetry. rewrite !andb_true_iff, !Z.leb_le. lia.
Qed.

Lemma go_slice_suffix {A : Type} (s : list A) (lo : Z) :
  0 <= lo <= go_len s ->
  go_slice s lo (go_len s) = Returned (skipn (Z.to_nat lo) s).
Proof.
  intros Hlo. unfold go_slice.
  replace ((0 <=? lo) && (lo <=? go_len s) && (go_len s <=? go_len s)) with true.
  - f_equal. apply firstn_all2. rewrite length_skipn. unfold go_len in *. lia.
  - symmetry. rewrite !andb_true_iff, !Z.leb_le. lia.
Qed.

Lemma go_index_negative {A : Type} (s : list A) (i : Z) :
  i < 0 -> go_index s i = Panicked.
Proof.
  intros Hi. unfold go_index.
  replace (0 <=? i) with false; [reflexivity|].
  symmetry. apply Z.leb_gt. exact Hi.
Qed.

Lemma go_index_in_range {A : Type} (s : list A) (i : Z) :
  0 <= i < go_len s ->
  exists x, nth_error s (Z.to_nat i) = Some x /\ go_index s i = Returned x.
Proof.
  intros Hi. unfold go_index.
  replace ((0 <=? i) && (i <? go_len s)) with true.
  - destruct (nth_error s (Z.to_nat i)) as [x|] eqn:E.
    + now exists x.
    + apply nth_error_None in E. unfold go_len in Hi. lia.
  - symmetry. rewrite andb_true_iff, Z.leb_le, Z.ltb_lt. lia.
Qed.

(* ------------------------------------------------------------------ *)
(** * The child cache's mutators, one call at a time *)

Section CacheSteps.
Context {S : Type} `{NodeStore S}.

Lemma remove_path_head (v : Znode) (l : list Znode) :
  ChildCache.remove_path (Path v) (v :: l) = l.
Proof. simpl. now rewrite String.eqb_refl. Qed.

Lemma Remove_step (cc : ChildCache.t) (node : Znode) (c : Client S) :
  exists err cc' c',
    ChildCache.Remove cc node c = (err, cc', c') /\
    Issued c' = Issued c ++ [{| call_op := OpDelete (Path node); call_err := err |}] /\
    ChildCache.path cc' = ChildCache.path cc /\
    ChildCache.CreateFlags cc' = ChildCache.CreateFlags cc /\
    (err = None ->
     ChildCache.children cc' =
     ChildCache.remove_path (Path node) (ChildCache.children cc)) /\
    (err <> None -> cc' = cc).
Proof.
  unfold ChildCache.Remove.
  destruct (store_delete (Path node) (Conn c)) as [[e|] conn'].
  - eexists; eexists; eexists. split; [reflexivity|].
    repeat split; try reflexivity; congruence.
  - eexists; eexists; eexists. split; [reflexivity|].
    repeat split; try reflexivity; congruence.
Qed.

Lemma Add_step (cc : ChildCache.t) (node : Znode) (c : Client S) :
  exists err cc' c',
    ChildCache.Add cc node c = (err, cc', c') /\
    Issued c' =
    Issued c ++ [{| call_op := OpCreate (Path node) (ChildCache.CreateFlags cc);
                    call_err := err |}] /\
    ChildCache.path cc' = ChildCache.path cc /\
    ChildCache.CreateFlags cc' = ChildCache.CreateFlags cc /\
    (err = None -> ChildCache.children cc' = ChildCache.children cc ++ [node]) /\
    (err <> None -> cc' = cc).
Proof.
  unfold ChildCache.Add.
  destruct (store_create (Path node) (Data node) (ChildCache.CreateFlags cc) (Conn c))
    as [[e|p] conn'].
  - eexists; eexists; eexists. split; [reflexivity|].
    repeat split; try reflexivity; congruence.
  - eexists; eexists; eexists. split; [reflexivity|].
    repeat split; try reflexivity; congruence.
Qed.

End CacheSteps.

(* ------------------------------------------------------------------ *)
(** * The two redistribution loops *)

Section Loops.
Context {S : Type} `{NodeStore S}.

Lemma ShiftWork_loop_spec (selected : list Znode) :
  forall (cc : ChildCache.t) (removed : list Znode) (c : Client S),
  exists cc' c' calls,
    Worker.ShiftWork_loop cc selected removed c = (removed ++ selected, cc', c') /\
    Issued c' = Issued c ++ calls /\
    map call_op calls = map delete_of selected /\
    ChildCache.path cc' = ChildCache.path cc /\
    ChildCache.CreateFlags cc' = ChildCache.CreateFlags cc /\
    (Forall call_ok calls ->
     forall rest, ChildCache.children cc = selected ++ rest ->
                  ChildCache.children cc' = rest).
Proof.
  induction selected as [|v sel IH]; intros cc removed c.
  - exists cc, c, []. simpl. rewrite !app_nil_r.
    repeat split; try reflexivity. intros _ rest Hrest. exact Hrest.
  - destruct (Remove_step cc v c) as (err & cc1 & c1 & HR & Hlog & Hp & Hf & Hok & _).
    destruct (IH cc1 (removed ++ [v]) c1)
      as (cc' & c' & calls & HL & Hlog' & Hops & Hp' & Hf' & Hall).
    exists cc', c', ({| call_op := OpDelete (Path v); call_err := err |} :: calls).
    simpl. rewrite HR, HL, <- app_assoc. simpl.
    split; [reflexivity|].
    split; [rewrite Hlog', Hlog, <- app_assoc; reflexivity|].
    split; [now rewrite Hops|].
    split; [congruence|]. split; [congruence|].
    intros Hcalls rest Hrest. inversion Hcalls as [|k ks Hk Hks]; subst.
    apply Hall; [exact Hks|].
    rewrite (Hok Hk), Hrest. simpl. now rewrite String.eqb_refl.
Qed.

Lemma UnshiftWork_loop_spec (nodes : list Znode) :
  forall (cc : ChildCache.t) (c : Client S),
  exists cc' c' calls,
    Worker.UnshiftWork_loop cc nodes c = (cc', c') /\
    Issued c' = Issued c ++ calls /\
    map call_op calls = map (create_of (ChildCache.CreateFlags cc)) nodes /\
    ChildCache.path cc' = ChildCache.path cc /\
    ChildCache.CreateFlags cc' = ChildCache.CreateFlags cc /\
    (Forall call_ok calls ->
     ChildCache.children cc' = ChildCache.children cc ++ nodes).
Proof.
  induction nodes as [|n rest IH]; intros cc c.
  - exists cc, c, []. simpl. rewrite !app_nil_r. repeat split; reflexivity.
  - destruct (Add_step cc n c) as (err & cc1 & c1 & HA & Hlog & Hp & Hf & Hok & _).
    destruct (IH cc1 c1) as (cc' & c' & calls & HL & Hlog' & Hops & Hp' & Hf' & Hall).
    exists cc', c',
      ({| call_op := OpCreate (Path n) (ChildCache.CreateFlags cc); call_err := err |}
         :: calls).
    simpl. rewrite HA, HL.
    split; [reflexivity|].
    split; [rewrite Hlog', Hlog, <- app_assoc; reflexivity|].
    split; [rewrite Hops, Hf; reflexivity|].
    split; [congruence|]. split; [congruence|].
    intros Hcalls. inversion Hcalls as [|k ks Hk Hks]; subst.
    rewrite (Hall Hks), (Hok Hk), <- app_assoc. reflexivity.
Qed.

(** [ShiftWork] inside its guard: it does not panic, returns the selected
    prefix, and issues one delete per selected entry, in order. *)
Lemma ShiftWork_in_guard (w : Worker.t) (amount : Z) (c : Client S) :
  0 < amount <= ChildCache.Size (Worker.Children w) ->
  exists w' c' calls,
    Worker.ShiftWork w amount c =
    Returned (firstn (Z.to_nat amount) (ChildCache.children (Worker.Children w)),
              w', c') /\
    Worker.znode w' = Worker.znode w /\
    Issued c' = Issued c ++ calls /\
    map call_op calls =
    map delete_of (firstn (Z.to_nat amount) (ChildCache.children (Worker.Children w))) /\
    ChildCache.CreateFlags (Worker.Children w') =
    ChildCache.CreateFlags (Worker.Children w) /\
    (Forall call_ok calls ->
     ChildCache.children (Worker.Children w') =
     skipn (Z.to_nat amount) (ChildCache.children (Worker.Children w))).
Proof.
  intros Hamount. unfold Worker.ShiftWork.
  replace ((ChildCache.Size (Worker.Children w) >=? amount) && (amount >? 0))
    with true
    by (symmetry; rewrite andb_true_iff, Z.geb_le, Z.gtb_lt; lia).
  unfold ChildCache.ToSlice, ChildCache.Size in *.
  rewrite go_slice_prefix by lia. simpl obind.
  set (sel := firstn (Z.to_nat amount) (ChildCache.children (Worker.Children w))).
  destruct (ShiftWork_loop_spec sel (Worker.Children w) [] c)
    as (cc' & c' & calls & HL & Hlog & Hops & _ & Hf & Hall).
  rewrite HL. simpl.
  exists {| Worker.znode := Worker.znode w; Worker.Children := cc' |}, c', calls.
  repeat split; try assumption.
  intros Hcalls. apply Hall; [exact Hcalls|].
  unfold sel. symmetry. apply firstn_skipn.
Qed.

(** [ShiftWork] outside its guard: nothing happens. *)
Lemma ShiftWork_off_guard (w : Worker.t) (amount : Z) (c : Client S) :
  amount <= 0 \/ ChildCache.Size (Worker.Children w) < amount ->
  Worker.ShiftWork w amount c = Returned ([], w, c).
Proof.
  intros Hamount. unfold Worker.ShiftWork.
  replace ((ChildCache.Size (Worker.Children w) >=? amount) && (amount >? 0))
    with false; [reflexivity|].
  symmetry. rewrite andb_false_iff, Z.geb_leb, Z.gtb_ltb, Z.leb_gt, Z.ltb_ge. lia.
Qed.

End Loops.

(* ------------------------------------------------------------------ *)
(** * Worker.ShiftWork and Worker.UnshiftWork *)

Lemma selection_in_guard (w : Worker.t) (amount : Z) :
  0 < amount <= ChildCache.Size (Worker.Children w) ->
  Worker.selection w amount =
  firstn (Z.to_nat amount) (ChildCache.children (Worker.Children w)).
Proof.
  intros Hamount. unfold Worker.selection.
  replace ((ChildCache.Size (Worker.Children w) >=? amount) && (amount >? 0))
    with true; [reflexivity|].
  symmetry; rewrite andb_true_iff, Z.geb_le, Z.gtb_lt; lia.
Qed.

Lemma selection_off_guard (w : Worker.t) (amount : Z) :
  amount <= 0 \/ ChildCache.Size (Worker.Children w) < amount ->
  Worker.selection w amount = [].
Proof.
  intros Hamount. unfold Worker.selection.
  replace ((ChildCache.Size (Worker.Children w) >=? amount) && (amount >? 0))
    with false; [reflexivity|].
  symmetry. rewrite andb_false_iff, Z.geb_leb, Z.gtb_ltb, Z.leb_gt, Z.ltb_ge. lia.
Qed.

(** ShiftWork never panics, returns its selection, and attempts one delete
    per selected entry whatever the earlier ones gave. *)
Lemma ShiftWork_total {S : Type} `{NodeStore S}
  (w : Worker.t) (amount : Z) (c : Client S) :
  exists w' c' calls,
    Worker.ShiftWork w amount c = Returned (Worker.selection w amount, w', c') /\
    Issued c' = Issued c ++ calls /\
    map call_op calls = map delete_of (Worker.selection w amount).
Proof.
  destruct (Z_lt_le_dec 0 amount) as [Hpos|Hneg];
    [destruct (Z_le_gt_dec amount (ChildCache.Size (Worker.Children w))) as [Hle|Hgt]|].
  - destruct (ShiftWork_in_guard w amount c (conj Hpos Hle))
      as (w' & c' & calls & HS & _ & Hlog & Hops & _).
    exists w', c', calls. rewrite selection_in_guard by lia. auto.
  - exists w, c, []. rewrite selection_off_guard by lia.
    rewrite ShiftWork_off_guard by lia. rewrite app_nil_r. auto.
  - exists w, c, []. rewrite selection_off_guard by lia.
    rewrite ShiftWork_off_guard by lia. rewrite app_nil_r. auto.
Qed.

(** C1 (as stated, refuted): with a store that refuses to delete [work-1],
    [ShiftWork(2)] still returns [work-1], whose removal failed and which is
    still in the cache. *)
Lemma ShiftWork_returns_unremoved_entry :
  exists w' c',
    Worker.ShiftWork Scenario.w1 2 (MemStore.connect Scenario.stuck) =
    Returned ([Scenario.work1; Scenario.work2], w', c') /\
    removal_failed (Issued c') Scenario.work1 = true /\
    ChildCache.children (Worker.Children w') = [Scenario.work1; Scenario.work3].
Proof.
  eexists. eexists. split; [vm_compute; reflexivity|].
  split; vm_compute; reflexivity.
Qed.

(** C1 (amended): for [0 < amount <= Size()], the slice returned by
    [ShiftWork(amount)] is the selection itself, the first [amount] entries
    of the cache's order, whatever each [Children.Remove] gave. *)
Theorem ShiftWork_returns_selected {S : Type} `{NodeStore S}
  (w : Worker.t) (amount : Z) (c : Client S) :
  0 < amount <= ChildCache.Size (Worker.Children w) ->
  Worker.returned (Worker.ShiftWork w amount c) =
  Returned (firstn (Z.to_nat amount) (ChildCache.children (Worker.Children w))).
Proof.
  intros Hamount.
  destruct (ShiftWork_in_guard w amount c Hamount) as (w' & c' & calls & HS & _).
  rewrite HS. reflexivity.
Qed.

Lemma ShiftWork_returns_selected_witness :
  Worker.returned (Worker.ShiftWork Scenario.w1 2 (MemStore.connect Scenario.stuck)) =
  Returned [Scenario.work1; Scenario.work2].
Proof.
  apply (ShiftWork_returns_selected Scenario.w1 2 (MemStore.connect Scenario.stuck)).
  vm_compute. split; [reflexivity | discriminate].
Defined.

(** C2 (as stated, refuted): [ShiftWork(2)] hands back the very same slice
    whether the session is up (no call fails) or lost (every call fails),
    and an [UnshiftWork] whose create fails yields nothing but the
    unchanged worker. *)
Lemma ShiftWork_UnshiftWork_hide_failures :
  (exists w' c' w'' c'',
     Worker.ShiftWork Scenario.w1 2 (MemStore.connect Scenario.healthy) =
     Returned ([Scenario.work1; Scenario.work2], w', c') /\
     Worker.ShiftWork Scenario.w1 2 (MemStore.connect Scenario.offline) =
     Returned ([Scenario.work1; Scenario.work2], w'', c'') /\
     existsb failed (Issued c') = false /\
     forallb failed (Issued c'') = true) /\
  (exists c',
     Worker.UnshiftWork Scenario.w1 [Scenario.work1]
       (MemStore.connect Scenario.healthy) = (Scenario.w1, c') /\
     Issued c' =
     [{| call_op := OpCreate (Path Scenario.work1) FlagEphemeral;
         call_err := Some NodeExists |}]).
Proof.
  split.
  - do 4 eexists. split; [vm_compute; reflexivity|].
    split; [vm_compute; reflexivity|]. split; vm_compute; reflexivity.
  - eexists. split; vm_compute; reflexivity.
Qed.

(** C2 (amended): neither method reports a per-item failure. The slice
    [ShiftWork] returns is fixed by the cache and the amount alone, so it is
    the same whether or not a [Children.Remove] failed, and [UnshiftWork]
    returns nothing; a failed call is dropped and the remaining nodes are
    still processed, one store call per node, in order. *)
Theorem ShiftWork_UnshiftWork_drop_failures {S : Type} `{NodeStore S}
  (w : Worker.t) (amount : Z) (nodes : list Znode) (c : Client S) :
  Worker.returned (Worker.ShiftWork w amount c) = Returned (Worker.selection w amount) /\
  (exists w' c' calls,
     Worker.ShiftWork w amount c = Returned (Worker.selection w amount, w', c') /\
     Issued c' = Issued c ++ calls /\
     map call_op calls = map delete_of (Worker.selection w amount)) /\
  (exists w' c' calls,
     Worker.UnshiftWork w nodes c = (w', c') /\
     Issued c' = Issued c ++ calls /\
     map call_op calls =
     map (create_of (ChildCache.CreateFlags (Worker.Children w))) nodes).
Proof.
  destruct (ShiftWork_total w amount c) as (w' & c' & calls & HS & Hlog & Hops).
  split; [rewrite HS; reflexivity|].
  split; [exists w', c', calls; auto|].
  unfold Worker.UnshiftWork.
  destruct (UnshiftWork_loop_spec nodes (Worker.Children w) c)
    as (cc & c2 & calls2 & HL & Hlog2 & Hops2 & _).
  rewrite HL. eexists. exists c2, calls2. auto.
Qed.

(** The loop of [ShiftWork] is [Children.Remove] called for each selected
    entry in turn, and so the store's [delete] asked for each of their paths
    in turn: same cache, same client, same answers. *)
Lemma ShiftWork_loop_pinned {S : Type} `{NodeStore S} (selected : list Znode) :
  forall (cc : ChildCache.t) (removed : list Znode) (c : Client S),
  exists cc' c' calls,
    Worker.ShiftWork_loop cc selected removed c = (removed ++ selected, cc', c') /\
    ChildCache.Remove_each cc selected c = (cc', c') /\
    Issued c' = Issued c ++ calls /\
    map call_op calls = map delete_of selected /\
    map call_err calls = fst (delete_each selected (Conn c)) /\
    Conn c' = snd (delete_each selected (Conn c)) /\
    (Forall call_ok calls ->
     forall rest, ChildCache.children cc = selected ++ rest ->
                  ChildCache.children cc' = rest).
Proof.
  induction selected as [|v sel IH]; intros cc removed c.
  - exists cc, c, []. simpl. rewrite !app_nil_r.
    repeat split; try reflexivity. intros _ rest Hrest. exact Hrest.
  - cbn [Worker.ShiftWork_loop ChildCache.Remove_each delete_each].
    unfold ChildCache.Remove.
    destruct (store_delete (Path v) (Conn c)) as [err conn'] eqn:Hdel.
    set (cc1 := match err with
                | Some _ => cc
                | None =>
                    {| ChildCache.path := ChildCache.path cc;
                       ChildCache.CreateFlags := ChildCache.CreateFlags cc;
                       ChildCache.children :=
                         ChildCache.remove_path (Path v) (ChildCache.children cc) |}
                end).
    set (c1 := issue c conn' (OpDelete (Path v)) err).
    destruct (IH cc1 (removed ++ [v]) c1)
      as (cc' & c' & calls & HL & HE & Hlog & Hops & Herrs & Hconn & Hall).
    exists cc', c', ({| call_op := OpDelete (Path v); call_err := err |} :: calls).
    assert (Hstep : (match err with
                     | Some e => (Some e, cc, issue c conn' (OpDelete (Path v)) (Some e))
                     | None =>
                         (None,
                          {| ChildCache.path := ChildCache.path cc;
                             ChildCache.CreateFlags := ChildCache.CreateFlags cc;
                             ChildCache.children :=
                               ChildCache.remove_path (Path v) (ChildCache.children cc) |},
                          issue c conn' (OpDelete (Path v)) None)
                     end) = (err, cc1, c1)).
    { unfold cc1, c1. now destruct err. }
    rewrite Hstep, HL, HE, <- app_assoc.
    simpl in Hconn, Herrs.
    destruct (delete_each sel conn') as [errs s2] eqn:Hrest.
    simpl in *.
    split; [reflexivity|]. split; [reflexivity|].
    split; [rewrite Hlog; unfold c1; simpl; now rewrite <- app_assoc|].
    split; [now rewrite Hops|].
    split; [now rewrite Herrs|].
    split; [exact Hconn|].
    intros Hcalls rest Hch. inversion Hcalls as [|k ks Hk Hks]; subst.
    apply Hall; [exact Hks|].
    unfold call_ok in Hk. simpl in Hk. subst err. unfold cc1. simpl.
    rewrite Hch. simpl. now rewrite String.eqb_refl.
Qed.

Lemma firstn_within {A : Type} (n : nat) (l1 l2 : list A) :
  (n <= List.length l1)%nat -> firstn n (l1 ++ l2) = firstn n l1.
Proof.
  revert n. induction l1 as [|a l1 IH]; intros [|n] Hn; simpl in *; try reflexivity;
    try lia.
  f_equal. apply IH. lia.
Qed.

(** C3: for [0 < n <= Size()], [ShiftWork(n)] selects the first [n] entries
    of the cache's order and calls [Children.Remove] for each of them, in
    order: the cache and the client it leaves are those of these calls, the
    store has been asked one delete per selected path, in order, and has
    answered what the history records. When all of them succeed the cache is
    left with the entries after the first [n]: [Size()] has decreased by
    [n]. The cache's order is the order of insertion: a [Children.Add] that
    succeeds puts its node behind the entries already there, so the first
    [n] are still the ones [ShiftWork(n)] selects afterwards. *)
Theorem ShiftWork_fifo {S : Type} `{NodeStore S}
  (w : Worker.t) (n : Z) (c : Client S) :
  0 < n <= ChildCache.Size (Worker.Children w) ->
  (exists w' c' calls,
     Worker.ShiftWork w n c =
     Returned (firstn (Z.to_nat n) (ChildCache.children (Worker.Children w)), w', c') /\
     ChildCache.Remove_each (Worker.Children w)
       (firstn (Z.to_nat n) (ChildCache.children (Worker.Children w))) c =
     (Worker.Children w', c') /\
     Issued c' = Issued c ++ calls /\
     map call_op calls =
     map delete_of (firstn (Z.to_nat n) (ChildCache.children (Worker.Children w))) /\
     map call_err calls =
     fst (delete_each (firstn (Z.to_nat n) (ChildCache.children (Worker.Children w)))
            (Conn c)) /\
     Conn c' =
     snd (delete_each (firstn (Z.to_nat n) (ChildCache.children (Worker.Children w)))
            (Conn c)) /\
     (Forall call_ok calls ->
      ChildCache.children (Worker.Children w') =
      skipn (Z.to_nat n) (ChildCache.children (Worker.Children w)) /\
      ChildCache.Size (Worker.Children w') = ChildCache.Size (Worker.Children w) - n)) /\
  (forall (node : Znode) (c0 c1 c2 : Client S) (cc1 : ChildCache.t),
     ChildCache.Add (Worker.Children w) node c0 = (None, cc1, c1) ->
     ChildCache.children cc1 = ChildCache.children (Worker.Children w) ++ [node] /\
     Worker.returned
       (Worker.ShiftWork {| Worker.znode := Worker.znode w; Worker.Children := cc1 |} n c2) =
     Returned (firstn (Z.to_nat n) (ChildCache.children (Worker.Children w)))).
Proof.
  intros Hn. split.
  - unfold Worker.ShiftWork.
    replace ((ChildCache.Size (Worker.Children w) >=? n) && (n >? 0)) with true
      by (symmetry; rewrite andb_true_iff, Z.geb_le, Z.gtb_lt; lia).
    unfold ChildCache.ToSlice, ChildCache.Size in *.
    rewrite go_slice_prefix by lia. simpl obind.
    set (sel := firstn (Z.to_nat n) (ChildCache.children (Worker.Children w))).
    destruct (ShiftWork_loop_pinned sel (Worker.Children w) [] c)
      as (cc' & c' & calls & HL & HE & Hlog & Hops & Herrs & Hconn & Hall).
    rewrite HL. simpl.
    exists {| Worker.znode := Worker.znode w; Worker.Children := cc' |}, c', calls.
    simpl. split; [reflexivity|]. split; [exact HE|]. split; [exact Hlog|].
    split; [exact Hops|]. split; [exact Herrs|]. split; [exact Hconn|].
    intros Hcalls.
    assert (Hch : ChildCache.children cc' =
                  skipn (Z.to_nat n) (ChildCache.children (Worker.Children w))).
    { apply Hall; [exact Hcalls|]. unfold sel. symmetry. apply firstn_skipn. }
    split; [exact Hch|].
    unfold go_len in *. rewrite Hch, length_skipn. lia.
  - intros node c0 c1 c2 cc1 HA.
    destruct (Add_step (Worker.Children w) node c0)
      as (err & cc' & c' & HA' & _ & _ & _ & Hok & _).
    rewrite HA in HA'. injection HA' as <- <- <-.
    specialize (Hok eq_refl). split; [exact Hok|].
    destruct (ShiftWork_in_guard
                {| Worker.znode := Worker.znode w; Worker.Children := cc1 |} n c2)
      as (w' & c' & calls & HS & _).
    + simpl. unfold ChildCache.Size in *. rewrite Hok, go_len_app.
      pose proof (go_len_nonneg [node]). lia.
    + rewrite HS. simpl. rewrite Hok. f_equal. apply firstn_within.
      unfold ChildCache.Size, go_len in Hn. lia.
Qed.

Lemma ShiftWork_fifo_witness :
  exists w' c',
    Worker.ShiftWork Scenario.w1 2 (MemStore.connect Scenario.healthy) =
    Returned ([Scenario.work1; Scenario.work2], w', c') /\
    ChildCache.children (Worker.Children w') = [Scenario.work3] /\
    ChildCache.Size (Worker.Children w') = 1 /\
    MemStore.nodes (Conn c') = [(Path Scenario.work3, FlagEphemeral)].
Proof.
  destruct (ShiftWork_fifo Scenario.w1 2 (MemStore.connect Scenario.healthy))
    as [(w' & c' & calls & HS & HE & Hlog & Hops & Herrs & Hconn & Hall) _].
  - vm_compute. split; [reflexivity | discriminate].
  - exists w', c'. split; [exact HS|].
    rewrite Hconn.
    vm_compute in HS. injection HS as Hw Hc. subst c'. simpl in Hlog. subst calls.
    destruct Hall as [Hch Hsize]; [repeat constructor|].
    split; [exact Hch|]. split; [exact Hsize|]. vm_compute. reflexivity.
Defined.

(** C4: for [Size() < amount], [ShiftWork(amount)] issues no removal,
    leaves the worker's cache (and the client) as they were, and returns an
    empty slice. *)
Theorem ShiftWork_beyond_size {S : Type} `{NodeStore S}
  (w : Worker.t) (amount : Z) (c : Client S) :
  ChildCache.Size (Worker.Children w) < amount ->
  Worker.ShiftWork w amount c = Returned ([], w, c).
Proof. intros Hamount. apply ShiftWork_off_guard. now right. Qed.

Lemma ShiftWork_beyond_size_witness :
  Worker.ShiftWork Scenario.w1 4 (MemStore.connect Scenario.healthy) =
  Returned ([], Scenario.w1, MemStore.connect Scenario.healthy).
Proof.
  apply (ShiftWork_beyond_size Scenario.w1 4 (MemStore.connect Scenario.healthy)).
  vm_compute. reflexivity.
Defined.

(** C5 (as stated, refuted): [ShiftWork(0)] is not rejected: it returns
    normally, with the same outcome as the no-op of an amount beyond the
    size. *)
Lemma ShiftWork_zero_is_not_rejected :
  Worker.rejected
    (Worker.ShiftWork Scenario.w1 0 (MemStore.connect Scenario.healthy)) = false /\
  Worker.ShiftWork Scenario.w1 0 (MemStore.connect Scenario.healthy) =
  Worker.ShiftWork Scenario.w1 4 (MemStore.connect Scenario.healthy).
Proof. split; vm_compute; reflexivity. Qed.

(** C5 (amended): for [amount <= 0], [ShiftWork(amount)] is a normal no-op:
    it returns an empty slice, with no removal issued and the worker's cache
    unchanged. *)
Theorem ShiftWork_nonpositive_noop {S : Type} `{NodeStore S}
  (w : Worker.t) (amount : Z) (c : Client S) :
  amount <= 0 ->
  Worker.ShiftWork w amount c = Returned ([], w, c).
Proof. intros Hamount. apply ShiftWork_off_guard. now left. Qed.

Lemma ShiftWork_nonpositive_noop_witness :
  Worker.ShiftWork Scenario.w1 (-3) (MemStore.connect Scenario.healthy) =
  Returned ([], Scenario.w1, MemStore.connect Scenario.healthy).
Proof.
  apply (ShiftWork_nonpositive_noop Scenario.w1 (-3) (MemStore.connect Scenario.healthy)).
  vm_compute. discriminate.
Defined.



(* ------------------------------------------------------------------ *)
(** * NewWork, NewWorker and the creation flags *)

Section Flags.
Context {S : Type} `{NodeStore S}.

Lemma run_keeps_flags (ops : list ChildCache.Op) :
  forall (cc : ChildCache.t) (c : Client S),
    ChildCache.CreateFlags (fst (ChildCache.run cc ops c)) = ChildCache.CreateFlags cc.
Proof.
  induction ops as [|[node|node] rest IH]; intros cc c; simpl.
  - reflexivity.
  - destruct (Add_step cc node c) as (err & cc' & c' & HA & _ & _ & Hf & _).
    rewrite HA, IH. exact Hf.
  - destruct (Remove_step cc node c) as (err & cc' & c' & HR & _ & _ & Hf & _).
    rewrite HR, IH. exact Hf.
Qed.

(** An [Add] on a cache whose flags are [flags] is a create under
    [flags]: in the history, and in what reaches the store. *)
Lemma Add_creates_with_flags (cc : ChildCache.t) (node : Znode) (c : Client S)
  (flags : Z) :
  ChildCache.CreateFlags cc = flags ->
  exists err cc' c',
    ChildCache.Add cc node c = (err, cc', c') /\
    Issued c' = Issued c ++ [{| call_op := OpCreate (Path node) flags; call_err := err |}] /\
    Conn c' = snd (store_create (Path node) (Data node) flags (Conn c)).
Proof.
  intros Hflags. subst flags. unfold ChildCache.Add.
  destruct (store_create (Path node) (Data node) (ChildCache.CreateFlags cc) (Conn c))
    as [[e|p] conn']; do 3 eexists; repeat split; reflexivity.
Qed.

End Flags.

(** C10: the cache of a [Work] or [Worker] fresh from [NewWork] or
    [NewWorker] carries the ephemeral creation flag, keeps it through any
    sequence of [Children.Add] and [Children.Remove], and every
    [Children.Add] on it is a create issued to the store under that flag. *)
Theorem new_caches_create_ephemeral {S : Type} `{NodeStore S}
  (path : string) (ops : list ChildCache.Op) (node : Znode) (c : Client S) :
  ChildCache.CreateFlags (Work.Children (Work.NewWork path)) = FlagEphemeral /\
  ChildCache.CreateFlags (Worker.Children (Worker.NewWorker path)) = FlagEphemeral /\
  forall cc0,
    cc0 = Work.Children (Work.NewWork path) \/
    cc0 = Worker.Children (Worker.NewWorker path) ->
    exists err cc' c',
      ChildCache.Add (fst (ChildCache.run cc0 ops c)) node
        (snd (ChildCache.run cc0 ops c)) = (err, cc', c') /\
      Issued c' =
      Issued (snd (ChildCache.run cc0 ops c)) ++
      [{| call_op := OpCreate (Path node) FlagEphemeral; call_err := err |}] /\
      Conn c' =
      snd (store_create (Path node) (Data node) FlagEphemeral
             (Conn (snd (ChildCache.run cc0 ops c)))).
Proof.
  split; [reflexivity|]. split; [reflexivity|].
  intros cc0 Hcc0. apply Add_creates_with_flags.
  rewrite run_keeps_flags. destruct Hcc0; subst cc0; reflexivity.
Qed.

(** On the in-memory store: the child a new worker adds is recorded as
    ephemeral. *)
Example NewWorker_child_is_ephemeral :
  let w := Worker.NewWorker "/workers/w1" in
  let empty := {| MemStore.nodes := []; MemStore.refused := []; MemStore.online := true |} in
  let '(_, c) := Worker.UnshiftWork w [Scenario.work1] (MemStore.connect empty) in
  MemStore.nodes (Conn c) = [(Path Scenario.work1, FlagEphemeral)].
Proof. vm_compute. reflexivity. Qed.

(* ------------------------------------------------------------------ *)
(** * The worker registry *)

Section Registry.
Variable worker : Worker.t.

Local Abbreviation same_id := (WorkerList.same_id worker).

Lemma IndexOf_loop_absent (ws : list Worker.t) :
  forall (i : Z) (index : option Z),
    (forall v, In v ws -> ~ same_id v) ->
    WorkerList.IndexOf_loop ws i worker index = index.
Proof.
  induction ws as [|v rest IH]; intros i index Hnone; simpl.
  - reflexivity.
  - rewrite IH by (intros y Hy; apply Hnone; now right).
    destruct (String.eqb_spec (Worker.Id v) (Worker.Id worker)) as [Heq|Hne].
    + exfalso. apply (Hnone v); [now left | exact Heq].
    + reflexivity.
Qed.

Lemma IndexOf_loop_last (front : list Worker.t) (x : Worker.t) (back : list Worker.t) :
  same_id x ->
  (forall v, In v back -> ~ same_id v) ->
  forall (i : Z) (index : option Z),
    WorkerList.IndexOf_loop (front ++ x :: back) i worker index =
    Some (i + go_len front).
Proof.
  intros Hx Hback. induction front as [|v front IH]; intros i index;
    cbn [WorkerList.IndexOf_loop app].
  - rewrite IndexOf_loop_absent by exact Hback.
    unfold WorkerList.same_id in Hx. rewrite Hx, String.eqb_refl.
    f_equal. unfold go_len. cbn [List.length]. lia.
  - rewrite IH. f_equal. unfold go_len. cbn [List.length]. lia.
Qed.

(** Among the entries with the worker's identity, there is a last one. *)
Lemma last_same_id (ws : list Worker.t) :
  (exists v, In v ws /\ same_id v) ->
  exists front x back,
    ws = front ++ x :: back /\ same_id x /\ (forall v, In v back -> ~ same_id v).
Proof.
  induction ws as [|a rest IH]; intros [v [Hin Hv]].
  - destruct Hin.
  - destruct (existsb (fun y => String.eqb (Worker.Id y) (Worker.Id worker)) rest)
      eqn:Hrest.
    + apply existsb_exists in Hrest. destruct Hrest as [y [Hy Heq]].
      apply String.eqb_eq in Heq.
      destruct IH as (front & x & back & Hsplit & Hx & Hback); [now exists y|].
      exists (a :: front), x, back. rewrite Hsplit. auto.
    + assert (Hnone : forall y, In y rest -> ~ same_id y).
      { intros y Hy Hsame.
        assert (Hex : existsb (fun y => String.eqb (Worker.Id y) (Worker.Id worker)) rest
                      = true).
        { apply existsb_exists. exists y. split; [exact Hy|].
          now apply String.eqb_eq. }
        congruence. }
      destruct Hin as [Ha|Hin].
      * subst a. exists [], v, rest. auto.
      * exfalso. exact (Hnone v Hin Hv).
Qed.

Lemma IndexOf_absent (l : WorkerList.t) :
  (forall v, In v (WorkerList.workers l) -> ~ same_id v) ->
  WorkerList.IndexOf l worker = None.
Proof. intros Hnone. unfold WorkerList.IndexOf. now apply IndexOf_loop_absent. Qed.

Lemma IndexOf_present (l : WorkerList.t) :
  (exists v, In v (WorkerList.workers l) /\ same_id v) ->
  exists front x back,
    WorkerList.workers l = front ++ x :: back /\ same_id x /\
    (forall v, In v back -> ~ same_id v) /\
    WorkerList.IndexOf l worker = Some (go_len front).
Proof.
  intros Hex. destruct (last_same_id _ Hex) as (front & x & back & Hsplit & Hx & Hback).
  exists front, x, back. repeat split; try assumption.
  unfold WorkerList.IndexOf. rewrite Hsplit.
  now rewrite IndexOf_loop_last.
Qed.

Lemma same_id_dec (ws : list Worker.t) :
  (exists v, In v ws /\ same_id v) \/ (forall v, In v ws -> ~ same_id v).
Proof.
  destruct (existsb (fun y => String.eqb (Worker.Id y) (Worker.Id worker)) ws) eqn:E.
  - left. apply existsb_exists in E. destruct E as [y [Hy Heq]].
    exists y. split; [exact Hy|]. now apply String.eqb_eq.
  - right. intros y Hy Hsame.
    assert (Hex : existsb (fun y => String.eqb (Worker.Id y) (Worker.Id worker)) ws = true).
    { apply existsb_exists. exists y. split; [exact Hy|]. now apply String.eqb_eq. }
    congruence.
Qed.

End Registry.

Lemma firstn_front {A : Type} (front back : list A) :
  firstn (Z.to_nat (go_len front)) (front ++ back) = front.
Proof.
  unfold go_len. rewrite Nat2Z.id.
  induction front as [|a front IH]; simpl; [now destruct back|now rewrite IH].
Qed.

Lemma skipn_front {A : Type} (front : list A) (x : A) (back : list A) :
  skipn (Z.to_nat (go_len front + 1)) (front ++ x :: back) = back.
Proof.
  unfold go_len. replace (Z.to_nat (Z.of_nat (List.length front) + 1)) with (S (List.length front)) by lia.
  induction front as [|a front IH]; simpl; [reflexivity|exact IH].
Qed.

(** Beyond the end [At] answers [nil]; inside the registry it answers the
    entry at that position. *)
Lemma At_beyond_end (l : WorkerList.t) (index : Z) :
  WorkerList.Size l <= index -> WorkerList.At l index = Returned None.
Proof.
  intros Hindex. unfold WorkerList.At, WorkerList.Size in *.
  replace (go_len (WorkerList.workers l) >? index) with false; [reflexivity|].
  symmetry. rewrite Z.gtb_ltb. apply Z.ltb_ge. exact Hindex.
Qed.

Lemma At_in_range (l : WorkerList.t) (index : Z) :
  0 <= index < WorkerList.Size l ->
  exists w, nth_error (WorkerList.workers l) (Z.to_nat index) = Some w /\
            WorkerList.At l index = Returned (Some w).
Proof.
  intros Hindex. unfold WorkerList.At, WorkerList.Size in *.
  replace (go_len (WorkerList.workers l) >? index) with true
    by (symmetry; rewrite Z.gtb_ltb; apply Z.ltb_lt; lia).
  destruct (go_index_in_range (WorkerList.workers l) index Hindex) as (w & Hnth & Hidx).
  exists w. rewrite Hidx. auto.
Qed.

(** C6 (the code at its failing inputs): a negative index passes the
    [len(l.workers) > index] test and the index expression panics. *)
Theorem At_negative_index_panics (l : WorkerList.t) (index : Z) :
  index < 0 -> WorkerList.At l index = Panicked.
Proof.
  intros Hindex. unfold WorkerList.At.
  replace (go_len (WorkerList.workers l) >? index) with true.
  - now rewrite go_index_negative.
  - symmetry. rewrite Z.gtb_ltb. apply Z.ltb_lt.
    pose proof (go_len_nonneg (WorkerList.workers l)). lia.
Qed.

Lemma At_negative_index_panics_witness :
  WorkerList.At Scenario.registry (-1) = Panicked.
Proof.
  apply (At_negative_index_panics Scenario.registry (-1)).
  vm_compute. reflexivity.
Defined.

(** C7: [Add] appends the worker and returns true exactly when no entry of
    the registry has its identity; otherwise it returns false and the
    registry is as it was. *)
Theorem Add_iff_fresh (l : WorkerList.t) (worker : Worker.t) :
  ((forall v, In v (WorkerList.workers l) -> Worker.Id v <> Worker.Id worker) ->
   WorkerList.Add l worker =
   ({| WorkerList.workers := WorkerList.workers l ++ [worker] |}, true)) /\
  ((exists v, In v (WorkerList.workers l) /\ Worker.Id v = Worker.Id worker) ->
   WorkerList.Add l worker = (l, false)) /\
  (snd (WorkerList.Add l worker) = true <->
   forall v, In v (WorkerList.workers l) -> Worker.Id v <> Worker.Id worker).
Proof.
  assert (Hfresh : (forall v, In v (WorkerList.workers l) -> Worker.Id v <> Worker.Id worker) ->
                   WorkerList.Add l worker =
                   ({| WorkerList.workers := WorkerList.workers l ++ [worker] |}, true)).
  { intros Hnone. unfold WorkerList.Add. now rewrite (IndexOf_absent worker l Hnone). }
  assert (Hknown : (exists v, In v (WorkerList.workers l) /\ Worker.Id v = Worker.Id worker) ->
                   WorkerList.Add l worker = (l, false)).
  { intros Hex. unfold WorkerList.Add.
    destruct (IndexOf_present worker l Hex) as (front & x & back & _ & _ & _ & Hidx).
    now rewrite Hidx. }
  split; [exact Hfresh|]. split; [exact Hknown|].
  split.
  - intros Htrue. destruct (same_id_dec worker (WorkerList.workers l)) as [Hex|Hnone].
    + rewrite (Hknown Hex) in Htrue. discriminate.
    + exact Hnone.
  - intros Hnone. now rewrite (Hfresh Hnone).
Qed.

(** C8: [Remove] takes out an entry with the worker's identity when there is
    one (the last such entry), the entries before and after it keeping their
    order, and returns true; when there is none it returns false and the
    registry is as it was. It never panics. *)
Theorem Remove_keeps_order (l : WorkerList.t) (worker : Worker.t) :
  ((exists v, In v (WorkerList.workers l) /\ Worker.Id v = Worker.Id worker) ->
   exists front x back,
     WorkerList.workers l = front ++ x :: back /\
     Worker.Id x = Worker.Id worker /\
     (forall v, In v back -> Worker.Id v <> Worker.Id worker) /\
     WorkerList.Remove l worker =
     Returned ({| WorkerList.workers := front ++ back |}, true)) /\
  ((forall v, In v (WorkerList.workers l) -> Worker.Id v <> Worker.Id worker) ->
   WorkerList.Remove l worker = Returned (l, false)).
Proof.
  split.
  - intros Hex.
    destruct (IndexOf_present worker l Hex) as (front & x & back & Hsplit & Hx & Hback & Hidx).
    exists front, x, back. repeat split; try assumption.
    unfold WorkerList.Remove. rewrite Hidx, Hsplit.
    rewrite go_slice_prefix, go_slice_suffix.
    + simpl. now rewrite firstn_front, skipn_front.
    + rewrite go_len_app. unfold go_len. cbn [List.length]. lia.
    + rewrite go_len_app. pose proof (go_len_nonneg front).
      pose proof (go_len_nonneg (x :: back)). lia.
  - intros Hnone. unfold WorkerList.Remove. now rewrite (IndexOf_absent worker l Hnone).
Qed.

(** The registry of the scenario: a known identity is neither added twice
    nor left in place by a removal. *)
Example registry_add_remove :
  WorkerList.Add Scenario.registry (Scenario.worker "w2") = (Scenario.registry, false) /\
  snd (WorkerList.Add Scenario.registry (Scenario.worker "w4")) = true /\
  WorkerList.Remove Scenario.registry (Scenario.worker "w2") =
  Returned ({| WorkerList.workers := [Scenario.worker "w1"; Scenario.worker "w3"] |}, true) /\
  WorkerList.Remove Scenario.registry (Scenario.worker "w4") =
  Returned (Scenario.registry, false).
Proof. repeat split; vm_compute; reflexivity. Qed.

(* ------------------------------------------------------------------ *)
(** * More on the worker registry: lookups, uniqueness, round trips *)

Lemma nth_error_front {A : Type} (front : list A) (x : A) (back : list A) :
  nth_error (front ++ x :: back) (List.length front) = Some x.
Proof. induction front as [|a front IH]; simpl; [reflexivity|exact IH]. Qed.

Lemma NoDup_snoc {A : Type} (l : list A) (x : A) :
  NoDup l -> ~ In x l -> NoDup (l ++ [x]).
Proof.
  induction l as [|a l IH]; intros Hl Hx; simpl.
  - constructor; [intros []|constructor].
  - inversion Hl as [|a' l' Ha Hl']; subst. constructor.
    + rewrite in_app_iff. intros [Hin|[Heq|[]]]; [now apply Ha|].
      apply Hx. now left.
    + apply IH; [exact Hl'|]. intros Hin. apply Hx. now right.
Qed.

Lemma copy_loop_app (ws : list Worker.t) :
  forall acc, WorkerList.copy_loop ws acc = acc ++ ws.
Proof.
  induction ws as [|v rest IH]; intros acc; simpl.
  - now rewrite app_nil_r.
  - now rewrite IH, <- app_assoc.
Qed.

Lemma registry_eta (l : WorkerList.t) :
  {| WorkerList.workers := WorkerList.workers l |} = l.
Proof. now destruct l. Qed.

Lemma In_ids (l : WorkerList.t) (worker : Worker.t) :
  In (Worker.Id worker) (WorkerList.ids l) <->
  exists v, In v (WorkerList.workers l) /\ Worker.Id v = Worker.Id worker.
Proof.
  unfold WorkerList.ids. rewrite in_map_iff. split; intros [v [H1 H2]]; exists v; auto.
Qed.

(** What [Remove] does, by whether the identity is known. *)
Lemma Remove_present (l : WorkerList.t) (worker : Worker.t) :
  (exists v, In v (WorkerList.workers l) /\ Worker.Id v = Worker.Id worker) ->
  exists front x back,
    WorkerList.workers l = front ++ x :: back /\
    Worker.Id x = Worker.Id worker /\
    (forall v, In v back -> Worker.Id v <> Worker.Id worker) /\
    WorkerList.Remove l worker =
    Returned ({| WorkerList.workers := front ++ back |}, true).
Proof.
  intros Hex.
  destruct (IndexOf_present worker l Hex) as (front & x & back & Hsplit & Hx & Hback & Hidx).
  exists front, x, back. repeat split; try assumption.
  unfold WorkerList.Remove. rewrite Hidx, Hsplit.
  rewrite go_slice_prefix, go_slice_suffix.
  - simpl. now rewrite firstn_front, skipn_front.
  - rewrite go_len_app. unfold go_len. cbn [List.length]. lia.
  - rewrite go_len_app. pose proof (go_len_nonneg front).
    pose proof (go_len_nonneg (x :: back)). lia.
Qed.

Lemma Remove_absent (l : WorkerList.t) (worker : Worker.t) :
  (forall v, In v (WorkerList.workers l) -> Worker.Id v <> Worker.Id worker) ->
  WorkerList.Remove l worker = Returned (l, false).
Proof. intros Hnone. unfold WorkerList.Remove. now rewrite (IndexOf_absent worker l Hnone). Qed.

Lemma Add_absent (l : WorkerList.t) (worker : Worker.t) :
  (forall v, In v (WorkerList.workers l) -> Worker.Id v <> Worker.Id worker) ->
  WorkerList.Add l worker =
  ({| WorkerList.workers := WorkerList.workers l ++ [worker] |}, true).
Proof. intros Hnone. unfold WorkerList.Add. now rewrite (IndexOf_absent worker l Hnone). Qed.

Lemma Add_present (l : WorkerList.t) (worker : Worker.t) :
  (exists v, In v (WorkerList.workers l) /\ Worker.Id v = Worker.Id worker) ->
  WorkerList.Add l worker = (l, false).
Proof.
  intros Hex. unfold WorkerList.Add.
  destruct (IndexOf_present worker l Hex) as (front & x & back & _ & _ & _ & Hidx).
  now rewrite Hidx.
Qed.

(** Uniqueness of identities is kept by each mutator. *)
Lemma Add_keeps_unique (l : WorkerList.t) (worker : Worker.t) :
  NoDup (WorkerList.ids l) -> NoDup (WorkerList.ids (fst (WorkerList.Add l worker))).
Proof.
  intros Hl. destruct (same_id_dec worker (WorkerList.workers l)) as [Hex|Hnone].
  - now rewrite (Add_present l worker Hex).
  - rewrite (Add_absent l worker Hnone). unfold WorkerList.ids in *. simpl.
    rewrite map_app. simpl. apply NoDup_snoc; [exact Hl|].
    intros Hin. apply in_map_iff in Hin. destruct Hin as [v [Hv Hin]].
    exact (Hnone v Hin Hv).
Qed.

Lemma Remove_keeps_unique (l : WorkerList.t) (worker : Worker.t) :
  NoDup (WorkerList.ids l) ->
  exists l' removed,
    WorkerList.Remove l worker = Returned (l', removed) /\
    NoDup (WorkerList.ids l') /\
    ~ In (Worker.Id worker) (WorkerList.ids l') /\
    WorkerList.Size l' = WorkerList.Size l - (if removed then 1 else 0).
Proof.
  intros Hl. destruct (same_id_dec worker (WorkerList.workers l)) as [Hex|Hnone].
  - destruct (Remove_present l worker Hex) as (front & x & back & Hsplit & Hx & Hback & HR).
    exists {| WorkerList.workers := front ++ back |}, true.
    unfold WorkerList.ids, WorkerList.Size in *. rewrite Hsplit in *. simpl.
    rewrite map_app in *. simpl in Hl.
    split; [exact HR|]. split; [now apply NoDup_remove_1 in Hl|].
    split.
    + apply NoDup_remove_2 in Hl. now rewrite <- Hx.
    + rewrite !go_len_app. unfold go_len. cbn [List.length]. lia.
  - exists l, false. split; [now apply Remove_absent|]. split; [exact Hl|].
    split; [|lia]. rewrite In_ids. intros [v [Hin Hv]]. exact (Hnone v Hin Hv).
Qed.

Lemma At_nonneg (l : WorkerList.t) (index : Z) :
  0 <= index ->
  WorkerList.At l index = Returned (nth_error (WorkerList.workers l) (Z.to_nat index)).
Proof.
  intros Hindex. destruct (Z_lt_le_dec index (WorkerList.Size l)) as [Hlt|Hge].
  - destruct (At_in_range l index (conj Hindex Hlt)) as (w & Hnth & HAt).
    now rewrite HAt, Hnth.
  - rewrite (At_beyond_end l index Hge). f_equal. symmetry.
    apply nth_error_None. unfold WorkerList.Size, go_len in Hge. lia.
Qed.

Lemma Find_loop_spec (f : Z -> Worker.t -> bool) (ws : list Worker.t) :
  forall i0,
    (exists k v,
       WorkerList.Find_loop f ws i0 = (i0 + Z.of_nat k, Some v) /\
       nth_error ws k = Some v /\
       f (i0 + Z.of_nat k) v = true /\
       forall j u, (j < k)%nat -> nth_error ws j = Some u ->
                   f (i0 + Z.of_nat j) u = false) \/
    (WorkerList.Find_loop f ws i0 = (-1, None) /\
     forall j u, nth_error ws j = Some u -> f (i0 + Z.of_nat j) u = false).
Proof.
  induction ws as [|v rest IH]; intros i0; simpl.
  - right. split; [reflexivity|]. intros [|j] u Hnth; discriminate.
  - destruct (f i0 v) eqn:Hf.
    + left. exists 0%nat, v. rewrite Z.add_0_r.
      repeat split; try assumption. intros j u Hj. lia.
    + destruct (IH (i0 + 1)) as [(k & x & HF & Hnth & Hfx & Hmin)|[HF Hall]].
      * left. exists (S k), x.
        replace (i0 + Z.of_nat (S k)) with (i0 + 1 + Z.of_nat k) by lia.
        repeat split; try assumption.
        intros [|j] u Hj Hu; simpl in Hu.
        -- injection Hu as <-. now rewrite Z.add_0_r.
        -- replace (i0 + Z.of_nat (S j)) with (i0 + 1 + Z.of_nat j) by lia.
           apply Hmin; [lia|exact Hu].
      * right. split; [exact HF|].
        intros [|j] u Hu; simpl in Hu.
        -- injection Hu as <-. now rewrite Z.add_0_r.
        -- replace (i0 + Z.of_nat (S j)) with (i0 + 1 + Z.of_nat j) by lia.
           now apply Hall.
Qed.

Lemma FindById_loop_first (id : string) (front : list Worker.t) (x : Worker.t)
  (back : list Worker.t) :
  (forall v, In v front -> Worker.Id v <> id) ->
  Worker.Id x = id ->
  forall i0,
    WorkerList.Find_loop (WorkerList.by_id id) (front ++ x :: back) i0 =
    (i0 + go_len front, Some x).
Proof.
  intros Hfront Hx. induction front as [|v front IH]; intros i0;
    cbn [WorkerList.Find_loop app]; unfold WorkerList.by_id at 1.
  - rewrite Hx, String.eqb_refl. unfold go_len. cbn [List.length].
    now rewrite Z.add_0_r.
  - destruct (String.eqb_spec (Worker.Id v) id) as [Heq|Hne].
    + exfalso. apply (Hfront v); [now left|exact Heq].
    + rewrite IH by (intros y Hy; apply Hfront; now right).
      f_equal. unfold go_len. cbn [List.length]. lia.
Qed.

Lemma FindById_loop_none (id : string) (ws : list Worker.t) :
  (forall v, In v ws -> Worker.Id v <> id) ->
  forall i0, WorkerList.Find_loop (WorkerList.by_id id) ws i0 = (-1, None).
Proof.
  intros Hnone. induction ws as [|v rest IH]; intros i0; cbn [WorkerList.Find_loop].
  - reflexivity.
  - unfold WorkerList.by_id at 1. destruct (String.eqb_spec (Worker.Id v) id) as [Heq|Hne].
    + exfalso. apply (Hnone v); [now left|exact Heq].
    + apply IH. intros y Hy. apply Hnone. now right.
Qed.

Lemma FindById_unfold (l : WorkerList.t) (id : string) :
  WorkerList.FindById l id = WorkerList.Find_loop (WorkerList.by_id id) (WorkerList.workers l) 0.
Proof.
  unfold WorkerList.FindById, WorkerList.Find. now rewrite copy_loop_app.
Qed.

(** X1: for an index that is not negative, [At(index)] is the entry of
    [ToSlice()] at that position, and nil from [Size()] on; [ToSlice()] has
    [Size()] entries. No panic. *)
Theorem At_reads_ToSlice (l : WorkerList.t) (index : Z) :
  0 <= index ->
  WorkerList.At l index = Returned (nth_error (WorkerList.ToSlice l) (Z.to_nat index)) /\
  go_len (WorkerList.ToSlice l) = WorkerList.Size l /\
  (WorkerList.Size l <= index -> WorkerList.At l index = Returned None).
Proof.
  intros Hindex. unfold WorkerList.ToSlice. rewrite copy_loop_app. simpl.
  split; [now apply At_nonneg|]. split; [reflexivity|].
  apply At_beyond_end.
Qed.

Lemma At_reads_ToSlice_witness :
  WorkerList.At Scenario.registry 1 = Returned (Some (Scenario.worker "w2")) /\
  WorkerList.At Scenario.registry 3 = Returned None.
Proof.
  split.
  - apply (At_reads_ToSlice Scenario.registry 1). vm_compute. discriminate.
  - apply (At_reads_ToSlice Scenario.registry 3); vm_compute; discriminate.
Defined.

(** X2: when [IndexOf] finds the worker, the index is inside the registry,
    [At] of it is an entry with the worker's identity, and no entry after
    it has that identity (the loop keeps the last match). *)
Theorem IndexOf_is_last_match (l : WorkerList.t) (worker : Worker.t) (i : Z) :
  WorkerList.IndexOf l worker = Some i ->
  0 <= i < WorkerList.Size l /\
  (exists v, WorkerList.At l i = Returned (Some v) /\ Worker.Id v = Worker.Id worker) /\
  (forall j u, i < j -> WorkerList.At l j = Returned (Some u) ->
               Worker.Id u <> Worker.Id worker).
Proof.
  intros Hidx. destruct (same_id_dec worker (WorkerList.workers l)) as [Hex|Hnone].
  - destruct (IndexOf_present worker l Hex)
      as (front & x & back & Hsplit & Hx & Hback & Hidx').
    rewrite Hidx in Hidx'. injection Hidx' as ->.
    pose proof (go_len_nonneg front) as Hfront.
    assert (Hsize : WorkerList.Size l = go_len front + 1 + go_len back).
    { unfold WorkerList.Size. rewrite Hsplit, go_len_app. unfold go_len.
      cbn [List.length]. lia. }
    pose proof (go_len_nonneg back) as Hb.
    split; [lia|]. split.
    + exists x. split; [|exact Hx].
      rewrite At_nonneg by lia. rewrite Hsplit. unfold go_len.
      now rewrite Nat2Z.id, nth_error_front.
    + intros j u Hj HAt. rewrite At_nonneg in HAt by lia.
      injection HAt as Hnth. rewrite Hsplit in Hnth.
      unfold go_len in Hj.
      rewrite nth_error_app2 in Hnth by lia.
      destruct (Z.to_nat j - List.length front)%nat as [|k] eqn:Hk; [lia|].
      simpl in Hnth. apply nth_error_In in Hnth. exact (Hback u Hnth).
  - rewrite (IndexOf_absent worker l Hnone) in Hidx. discriminate.
Qed.

Lemma IndexOf_is_last_match_witness :
  exists v,
    WorkerList.At Scenario.registry 1 = Returned (Some v) /\
    Worker.Id v = Worker.Id (Scenario.worker "w2").
Proof.
  apply (IndexOf_is_last_match Scenario.registry (Scenario.worker "w2") 1).
  vm_compute. reflexivity.
Defined.

(** X3: [IndexOf] answers nil exactly when no entry of the registry has
    the worker's identity. *)
Theorem IndexOf_nil_iff_unknown (l : WorkerList.t) (worker : Worker.t) :
  WorkerList.IndexOf l worker = None <->
  forall v, In v (WorkerList.workers l) -> Worker.Id v <> Worker.Id worker.
Proof.
  split.
  - intros Hidx. destruct (same_id_dec worker (WorkerList.workers l)) as [Hex|Hnone].
    + destruct (IndexOf_present worker l Hex) as (front & x & back & _ & _ & _ & Hidx').
      congruence.
    + exact Hnone.
  - apply IndexOf_absent.
Qed.

(** X4: [Find] returns the first entry its predicate accepts, with its
    index, every earlier entry having been refused; it returns [(-1, nil)]
    exactly when the predicate refuses every entry. *)
Theorem Find_returns_first_match (l : WorkerList.t) (f : Z -> Worker.t -> bool) :
  (exists k v,
     WorkerList.Find l f = (Z.of_nat k, Some v) /\
     nth_error (WorkerList.workers l) k = Some v /\
     f (Z.of_nat k) v = true /\
     forall j u, (j < k)%nat -> nth_error (WorkerList.workers l) j = Some u ->
                 f (Z.of_nat j) u = false) \/
  (WorkerList.Find l f = (-1, None) /\
   forall j u, nth_error (WorkerList.workers l) j = Some u -> f (Z.of_nat j) u = false).
Proof.
  unfold WorkerList.Find. rewrite copy_loop_app. simpl.
  exact (Find_loop_spec f (WorkerList.workers l) 0).
Qed.

(** X5: in a registry without duplicate identities [FindById] and
    [IndexOf] agree: the same index when the identity is known, and
    [(-1, nil)] against nil when it is not. *)
Theorem FindById_agrees_with_IndexOf (l : WorkerList.t) (worker : Worker.t) :
  NoDup (WorkerList.ids l) ->
  match WorkerList.IndexOf l worker with
  | Some i =>
      exists v, WorkerList.FindById l (Worker.Id worker) = (i, Some v) /\
                Worker.Id v = Worker.Id worker
  | None => WorkerList.FindById l (Worker.Id worker) = (-1, None)
  end.
Proof.
  intros Hl. rewrite FindById_unfold.
  destruct (same_id_dec worker (WorkerList.workers l)) as [Hex|Hnone].
  - destruct (IndexOf_present worker l Hex)
      as (front & x & back & Hsplit & Hx & Hback & Hidx).
    rewrite Hidx, Hsplit. exists x. split; [|exact Hx].
    rewrite FindById_loop_first; [reflexivity| |exact Hx].
    intros v Hv Heq. unfold WorkerList.ids in Hl. rewrite Hsplit, map_app in Hl.
    simpl in Hl. apply NoDup_remove_2 in Hl. apply Hl.
    rewrite in_app_iff. left. unfold WorkerList.same_id in Hx.
    rewrite Hx, <- Heq. now apply in_map.
  - rewrite (IndexOf_absent worker l Hnone). now apply FindById_loop_none.
Qed.

Lemma FindById_agrees_with_IndexOf_witness :
  exists v,
    WorkerList.FindById Scenario.registry (Worker.Id (Scenario.worker "w3")) =
    (2, Some v) /\
    Worker.Id v = Worker.Id (Scenario.worker "w3").
Proof.
  apply (FindById_agrees_with_IndexOf Scenario.registry (Scenario.worker "w3")).
  vm_compute. repeat constructor; simpl; intuition discriminate.
Defined.

Lemma go_slice_map {A B : Type} (f : A -> B) (s : list A) (lo hi : Z) :
  go_slice (map f s) lo hi =
  match go_slice s lo hi with
  | Returned x => Returned (map f x)
  | Panicked => Panicked
  end.
Proof.
  unfold go_slice, go_len. rewrite length_map.
  destruct ((0 <=? lo) && (lo <=? hi) && (hi <=? Z.of_nat (List.length s)));
    [|reflexivity].
  now rewrite skipn_map, firstn_map.
Qed.

(** On pointers none of which is nil, the three methods do what they do on
    the workers pointed to. *)
Lemma IndexOf_loop_of_workers (worker : Worker.t) (ws : list Worker.t) :
  forall i index,
    WorkerListPtr.IndexOf_loop (map Some ws) i (Some worker) index =
    Returned (WorkerList.IndexOf_loop ws i worker index).
Proof.
  induction ws as [|v rest IH]; intros i index; simpl; [reflexivity|apply IH].
Qed.

Lemma Add_of_workers (l : WorkerList.t) (worker : Worker.t) :
  WorkerListPtr.Add (WorkerListPtr.of_workers l) (Some worker) =
  Returned (WorkerListPtr.of_workers (fst (WorkerList.Add l worker)),
            snd (WorkerList.Add l worker)).
Proof.
  unfold WorkerListPtr.Add, WorkerListPtr.IndexOf, WorkerList.Add, WorkerList.IndexOf.
  simpl. rewrite IndexOf_loop_of_workers. simpl.
  destruct (WorkerList.IndexOf_loop (WorkerList.workers l) 0 worker None); simpl.
  - reflexivity.
  - unfold WorkerListPtr.of_workers. simpl. now rewrite map_app.
Qed.

Lemma Remove_of_workers (l : WorkerList.t) (worker : Worker.t) :
  WorkerListPtr.Remove (WorkerListPtr.of_workers l) (Some worker) =
  match WorkerList.Remove l worker with
  | Returned r => Returned (WorkerListPtr.of_workers (fst r), snd r)
  | Panicked => Panicked
  end.
Proof.
  unfold WorkerListPtr.Remove, WorkerListPtr.IndexOf, WorkerList.Remove, WorkerList.IndexOf.
  simpl. rewrite IndexOf_loop_of_workers. simpl.
  destruct (WorkerList.IndexOf_loop (WorkerList.workers l) 0 worker None) as [i|]; simpl;
    [|reflexivity].
  unfold go_len. rewrite length_map. fold (go_len (WorkerList.workers l)).
  rewrite !go_slice_map.
  destruct (go_slice (WorkerList.workers l) 0 i) as [front|]; simpl; [|reflexivity].
  destruct (go_slice (WorkerList.workers l) (i + 1) (go_len (WorkerList.workers l)))
    as [back|]; simpl; [|reflexivity].
  unfold WorkerListPtr.of_workers. simpl. now rewrite map_app.
Qed.

Lemma run_keeps_unique (ops : list WorkerListPtr.Op) :
  Forall (fun op => WorkerListPtr.argument op <> None) ops ->
  forall l, NoDup (WorkerList.ids l) ->
    exists l',
      WorkerListPtr.run (WorkerListPtr.of_workers l) ops =
      Returned (WorkerListPtr.of_workers l') /\
      NoDup (WorkerList.ids l').
Proof.
  induction 1 as [|op rest Hop Hrest IH]; intros l Hl.
  - now exists l.
  - destruct op as [[worker|]|[worker|]]; simpl in Hop; try congruence;
      cbn [WorkerListPtr.run].
    + rewrite Add_of_workers. simpl. apply IH. now apply Add_keeps_unique.
    + rewrite Remove_of_workers.
      destruct (Remove_keeps_unique l worker Hl) as (l1 & removed & HR & Hl1 & _).
      rewrite HR. simpl. now apply IH.
Qed.

(** X6: whatever sequence of [Add] and [Remove] calls a new registry goes
    through, as long as no call is given a nil worker: no call panics, no
    entry is nil, and no two entries ever share an identity. *)
Theorem registry_stays_unique (ops : list WorkerListPtr.Op) :
  Forall (fun op => WorkerListPtr.argument op <> None) ops ->
  exists l,
    WorkerListPtr.run WorkerListPtr.NewWorkerList ops =
    Returned (WorkerListPtr.of_workers l) /\
    NoDup (WorkerList.ids l).
Proof.
  intros Hops.
  destruct (run_keeps_unique ops Hops WorkerList.NewWorkerList) as (l & Hrun & Hl).
  - constructor.
  - now exists l.
Qed.

Lemma registry_stays_unique_witness :
  WorkerListPtr.run WorkerListPtr.NewWorkerList
    [WorkerListPtr.DoAdd (Some (Scenario.worker "w1"));
     WorkerListPtr.DoAdd (Some (Scenario.worker "w2"));
     WorkerListPtr.DoAdd (Some (Scenario.worker "w1"));
     WorkerListPtr.DoRemove (Some (Scenario.worker "w1"))] =
  Returned {| WorkerListPtr.workers := [Some (Scenario.worker "w2")] |}.
Proof.
  destruct (registry_stays_unique
              [WorkerListPtr.DoAdd (Some (Scenario.worker "w1"));
               WorkerListPtr.DoAdd (Some (Scenario.worker "w2"));
               WorkerListPtr.DoAdd (Some (Scenario.worker "w1"));
               WorkerListPtr.DoRemove (Some (Scenario.worker "w1"))])
    as (l & Hrun & _).
  - repeat constructor; discriminate.
  - rewrite Hrun. vm_compute in Hrun. injection Hrun as Hl.
    destruct l as [ws]. unfold WorkerListPtr.of_workers. simpl in *.
    f_equal. f_equal. symmetry. exact Hl.
Defined.

(** The precondition is needed: an empty registry accepts a nil worker
    ([IndexOf] finds nothing to compare it with), and from then on [Add],
    [Remove] and [IndexOf] of any worker panic on the nil entry. *)
Example nil_worker_poisons_registry :
  WorkerListPtr.Add WorkerListPtr.NewWorkerList None =
  Returned ({| WorkerListPtr.workers := [None] |}, true) /\
  WorkerListPtr.run WorkerListPtr.NewWorkerList
    [WorkerListPtr.DoAdd None; WorkerListPtr.DoAdd (Some (Scenario.worker "w1"))] =
  Panicked /\
  WorkerListPtr.Add (WorkerListPtr.of_workers Scenario.registry) None = Panicked.
Proof. repeat split; vm_compute; reflexivity. Qed.

(** X7: in a registry without duplicate identities, after [Remove(worker)]
    the identity is gone: [IndexOf] answers nil and [FindById] answers
    [(-1, nil)]; the size has decreased by one exactly when [Remove]
    returned true. *)
Theorem Remove_forgets_identity (l : WorkerList.t) (worker : Worker.t) :
  NoDup (WorkerList.ids l) ->
  exists l' removed,
    WorkerList.Remove l worker = Returned (l', removed) /\
    WorkerList.IndexOf l' worker = None /\
    WorkerList.FindById l' (Worker.Id worker) = (-1, None) /\
    WorkerList.Size l' = WorkerList.Size l - (if removed then 1 else 0).
Proof.
  intros Hl.
  destruct (Remove_keeps_unique l worker Hl) as (l' & removed & HR & _ & Hgone & Hsize).
  exists l', removed. split; [exact HR|].
  assert (Hnone : forall v, In v (WorkerList.workers l') -> Worker.Id v <> Worker.Id worker).
  { intros v Hv Heq. apply Hgone. apply In_ids. now exists v. }
  split; [now apply IndexOf_absent|]. split; [|exact Hsize].
  rewrite FindById_unfold. now apply FindById_loop_none.
Qed.

Lemma Remove_forgets_identity_witness :
  exists l' removed,
    WorkerList.Remove Scenario.registry (Scenario.worker "w2") = Returned (l', removed) /\
    WorkerList.IndexOf l' (Scenario.worker "w2") = None /\
    WorkerList.FindById l' (Worker.Id (Scenario.worker "w2")) = (-1, None) /\
    WorkerList.Size l' = WorkerList.Size Scenario.registry - (if removed then 1 else 0).
Proof.
  apply (Remove_forgets_identity Scenario.registry (Scenario.worker "w2")).
  vm_compute. repeat constructor; simpl; intuition discriminate.
Defined.

(** X8: adding a worker whose identity is new and removing it again gives
    the registry back as it was. *)
Theorem Remove_undoes_Add (l : WorkerList.t) (worker : Worker.t) :
  (forall v, In v (WorkerList.workers l) -> Worker.Id v <> Worker.Id worker) ->
  WorkerList.Remove (fst (WorkerList.Add l worker)) worker = Returned (l, true).
Proof.
  intros Hnone. rewrite (Add_absent l worker Hnone). simpl.
  unfold WorkerList.Remove, WorkerList.IndexOf. simpl.
  rewrite (IndexOf_loop_last worker (WorkerList.workers l) worker []);
    [|reflexivity|intros v []].
  rewrite Z.add_0_l.
  rewrite go_slice_prefix, go_slice_suffix.
  - simpl. rewrite firstn_front, skipn_front, app_nil_r. now rewrite registry_eta.
  - rewrite go_len_app. unfold go_len. cbn [List.length]. lia.
  - rewrite go_len_app. pose proof (go_len_nonneg (WorkerList.workers l)).
    unfold go_len in *. cbn [List.length]. lia.
Qed.

Lemma Remove_undoes_Add_witness :
  WorkerList.Remove (fst (WorkerList.Add Scenario.registry (Scenario.worker "w4")))
    (Scenario.worker "w4") = Returned (Scenario.registry, true).
Proof.
  apply (Remove_undoes_Add Scenario.registry (Scenario.worker "w4")).
  intros v Hv. vm_compute in Hv.
  repeat (destruct Hv as [<-|Hv]; [vm_compute; discriminate|]). destruct Hv.
Defined.

(** X9: after [Add(worker)], whatever it returned, the registry holds an
    entry with the worker's identity that [IndexOf] and [At] find, and the
    size has grown by one exactly when [Add] returned true. *)
Theorem Add_makes_known (l : WorkerList.t) (worker : Worker.t) :
  exists i v,
    WorkerList.IndexOf (fst (WorkerList.Add l worker)) worker = Some i /\
    WorkerList.At (fst (WorkerList.Add l worker)) i = Returned (Some v) /\
    Worker.Id v = Worker.Id worker /\
    WorkerList.Size (fst (WorkerList.Add l worker)) =
    WorkerList.Size l + (if snd (WorkerList.Add l worker) then 1 else 0).
Proof.
  assert (Hknown : forall l0,
             (exists v, In v (WorkerList.workers l0) /\ Worker.Id v = Worker.Id worker) ->
             exists i v, WorkerList.IndexOf l0 worker = Some i /\
                         WorkerList.At l0 i = Returned (Some v) /\
                         Worker.Id v = Worker.Id worker).
  { intros l0 Hex.
    destruct (IndexOf_present worker l0 Hex) as (front & x & back & Hsplit & Hx & _ & Hidx).
    exists (go_len front), x. split; [exact Hidx|]. split; [|exact Hx].
    rewrite At_nonneg by apply go_len_nonneg. rewrite Hsplit. unfold go_len.
    now rewrite Nat2Z.id, nth_error_front. }
  destruct (same_id_dec worker (WorkerList.workers l)) as [Hex|Hnone].
  - rewrite (Add_present l worker Hex). simpl.
    destruct (Hknown l Hex) as (i & v & H1 & H2 & H3).
    exists i, v. repeat split; try assumption. lia.
  - rewrite (Add_absent l worker Hnone). simpl.
    destruct (Hknown {| WorkerList.workers := WorkerList.workers l ++ [worker] |})
      as (i & v & H1 & H2 & H3).
    { exists worker. split; [|reflexivity]. simpl. rewrite in_app_iff. right. now left. }
    exists i, v. repeat split; try assumption.
    unfold WorkerList.Size. simpl. rewrite go_len_app. reflexivity.
Qed.

(* ------------------------------------------------------------------ *)
(** * More on redistribution: failures accounted for *)

Lemma served_unserved_length (nodes : list Znode) :
  forall calls, List.length calls = List.length nodes ->
    (List.length (served nodes calls) + List.length (unserved nodes calls))%nat =
    List.length nodes.
Proof.
  induction nodes as [|n ns IH]; intros [|k ks] Hlen; simpl in *; try discriminate.
  - reflexivity.
  - injection Hlen as Hlen. specialize (IH ks Hlen).
    destruct (failed k); simpl; lia.
Qed.

Lemma remove_path_skip (kept : list Znode) (v : Znode) (tail : list Znode) :
  (forall d, In d kept -> Path d <> Path v) ->
  ChildCache.remove_path (Path v) (kept ++ v :: tail) = kept ++ tail.
Proof.
  intros Hkept. induction kept as [|d kept IH]; simpl.
  - now rewrite String.eqb_refl.
  - destruct (String.eqb_spec (Path d) (Path v)) as [Heq|Hne].
    + exfalso. apply (Hkept d); [now left|exact Heq].
    + f_equal. apply IH. intros y Hy. apply Hkept. now right.
Qed.

Section Accounting.
Context {S : Type} `{NodeStore S}.


Lemma ShiftWork_loop_accounts (selected : list Znode) :
  forall (kept : list Znode) (cc : ChildCache.t) (removed : list Znode)
         (c : Client S) (rest : list Znode),
    ChildCache.children cc = kept ++ selected ++ rest ->
    (forall d v, In d kept -> In v selected -> Path d <> Path v) ->
    NoDup (map Path selected) ->
    exists cc' c' calls,
      Worker.ShiftWork_loop cc selected removed c = (removed ++ selected, cc', c') /\
      Issued c' = Issued c ++ calls /\
      List.length calls = List.length selected /\
      ChildCache.children cc' = kept ++ unserved selected calls ++ rest.
Proof.
  induction selected as [|v sel IH]; intros kept cc removed c rest Hch Hkept Hnodup.
  - exists cc, c, []. simpl. rewrite !app_nil_r. auto.
  - destruct (Remove_step cc v c) as (err & cc1 & c1 & HR & Hlog & _ & _ & Hok & Hko).
    inversion Hnodup as [|p ps Hv Hsel]; subst.
    destruct err as [e|].
    + specialize (Hko ltac:(discriminate)). subst cc1.
      destruct (IH (kept ++ [v]) cc (removed ++ [v]) c1 rest)
        as (cc' & c' & calls & HL & Hlog' & Hlen & Hch'); [| |exact Hsel|].
      * rewrite Hch, <- app_assoc. reflexivity.
      * intros d u Hd Hu. apply in_app_iff in Hd. destruct Hd as [Hd|[<-|[]]].
        -- apply Hkept; [exact Hd|now right].
        -- intros Heq. apply Hv. rewrite Heq. now apply in_map.
      * exists cc', c', ({| call_op := OpDelete (Path v); call_err := Some e |} :: calls).
        simpl. rewrite HR, HL, <- app_assoc.
        split; [reflexivity|].
        split; [rewrite Hlog', Hlog, <- app_assoc; reflexivity|].
        split; [now rewrite Hlen|].
        rewrite Hch', <- app_assoc. reflexivity.
    + specialize (Hok eq_refl).
      destruct (IH kept cc1 (removed ++ [v]) c1 rest)
        as (cc' & c' & calls & HL & Hlog' & Hlen & Hch'); [| |exact Hsel|].
      * rewrite Hok, Hch. simpl. apply remove_path_skip.
        intros d Hd. apply Hkept; [exact Hd|now left].
      * intros d u Hd Hu. apply Hkept; [exact Hd|now right].
      * exists cc', c', ({| call_op := OpDelete (Path v); call_err := None |} :: calls).
        simpl. rewrite HR, HL, <- app_assoc.
        split; [reflexivity|].
        split; [rewrite Hlog', Hlog, <- app_assoc; reflexivity|].
        split; [now rewrite Hlen|exact Hch'].
Qed.

End Accounting.

Lemma In_firstn {A : Type} (x : A) (n : nat) (l : list A) :
  In x (firstn n l) -> In x l.
Proof.
  revert n. induction l as [|a l IH]; intros [|n] Hin; simpl in *; try contradiction.
  destruct Hin as [Heq|Hin]; [now left|right; now apply (IH n)].
Qed.

Lemma NoDup_map_firstn {A B : Type} (f : A -> B) (n : nat) (l : list A) :
  NoDup (map f l) -> NoDup (map f (firstn n l)).
Proof.
  revert n. induction l as [|a l IH]; intros [|n] Hl; simpl; try constructor.
  - inversion Hl as [|x xs Ha Hl']; subst. intros Hin. apply Ha.
    apply in_map_iff in Hin. destruct Hin as [y [Hy Hin]].
    apply in_map_iff. exists y. split; [exact Hy|]. now apply (In_firstn y n l).
  - inversion Hl; subst. now apply IH.
Qed.


(** X11: [ShiftWork] with failures accounted for, on a cache whose entries
    have distinct paths: the selected entries whose delete failed stay at
    the front of the cache, in order, followed by the entries that were not
    selected; the size decreases by the number of deletes that went
    through. The failed ones are in the returned slice all the same. *)
Theorem ShiftWork_keeps_unserved_nodes {S : Type} `{NodeStore S}
  (w : Worker.t) (n : Z) (c : Client S) :
  NoDup (map Path (ChildCache.children (Worker.Children w))) ->
  0 < n <= ChildCache.Size (Worker.Children w) ->
  exists w' c' calls,
    let selected := firstn (Z.to_nat n) (ChildCache.children (Worker.Children w)) in
    Worker.ShiftWork w n c = Returned (selected, w', c') /\
    Issued c' = Issued c ++ calls /\
    List.length calls = List.length selected /\
    ChildCache.children (Worker.Children w') =
    unserved selected calls ++ skipn (Z.to_nat n) (ChildCache.children (Worker.Children w)) /\
    ChildCache.Size (Worker.Children w') =
    ChildCache.Size (Worker.Children w) - go_len (served selected calls).
Proof.
  intros Hnodup Hn. unfold Worker.ShiftWork.
  replace ((ChildCache.Size (Worker.Children w) >=? n) && (n >? 0)) with true
    by (symmetry; rewrite andb_true_iff, Z.geb_le, Z.gtb_lt; lia).
  unfold ChildCache.ToSlice, ChildCache.Size in *.
  rewrite go_slice_prefix by lia. simpl obind.
  set (ch := ChildCache.children (Worker.Children w)) in *.
  set (sel := firstn (Z.to_nat n) ch).
  destruct (ShiftWork_loop_accounts sel [] (Worker.Children w) [] c (skipn (Z.to_nat n) ch))
    as (cc' & c' & calls & HL & Hlog & Hlen & Hch).
  - simpl. unfold sel. symmetry. apply firstn_skipn.
  - intros d v [].
  - unfold sel. now apply NoDup_map_firstn.
  - rewrite HL. simpl.
    exists {| Worker.znode := Worker.znode w; Worker.Children := cc' |}, c', calls.
    simpl. repeat split; try assumption.
    rewrite Hch. simpl. rewrite go_len_app.
    pose proof (served_unserved_length sel calls Hlen) as Hsum.
    assert (Hsplit : go_len ch = go_len sel + go_len (skipn (Z.to_nat n) ch)).
    { rewrite <- go_len_app. unfold sel. now rewrite firstn_skipn. }
    unfold go_len in *. lia.
Qed.

Lemma ShiftWork_keeps_unserved_nodes_witness :
  exists w' c',
    Worker.ShiftWork Scenario.w1 2 (MemStore.connect Scenario.stuck) =
    Returned ([Scenario.work1; Scenario.work2], w', c') /\
    ChildCache.children (Worker.Children w') = [Scenario.work1; Scenario.work3].
Proof.
  destruct (ShiftWork_keeps_unserved_nodes Scenario.w1 2 (MemStore.connect Scenario.stuck))
    as (w' & c' & calls & HS & Hlog & Hlen & Hch & Hsize).
  - vm_compute. repeat constructor; simpl; intuition discriminate.
  - vm_compute. split; [reflexivity | discriminate].
  - exists w', c'. split; [exact HS|].
    rewrite Hch. vm_compute in HS. injection HS as Hw Hc. subst c'.
    simpl in Hlog. subst calls. reflexivity.
Defined.

(* ------------------------------------------------------------------ *)
(** * Paths: splitting, joining, prefixes *)

Lemma prefix_app_same (a t : string) : String.prefix a (a ++ t) = true.
Proof.
  induction a as [|ch a IH]; simpl.
  - now destruct t.
  - destruct (Ascii.ascii_dec ch ch) as [_|Hne]; [exact IH|now elim Hne].
Qed.

Lemma prefix_app_cancel (a b c : string) :
  String.prefix (a ++ b) (a ++ c) = String.prefix b c.
Proof.
  induction a as [|ch a IH]; simpl.
  - reflexivity.
  - destruct (Ascii.ascii_dec ch ch) as [_|Hne]; [exact IH|now elim Hne].
Qed.

Lemma string_app_assoc (a b c : string) : ((a ++ b) ++ c = a ++ (b ++ c))%string.
Proof. induction a as [|ch a IH]; simpl; [reflexivity|now rewrite IH]. Qed.

Lemma Split_nonempty (s : string) (sep : Ascii.ascii) :
  exists piece pieces, strings.Split s sep = piece :: pieces.
Proof.
  destruct s as [|ch rest]; simpl.
  - now exists EmptyString, [].
  - destruct (Ascii.eqb ch sep).
    + now exists EmptyString, (strings.Split rest sep).
    + destruct (strings.Split rest sep) as [|piece pieces].
      * now exists (String ch EmptyString), [].
      * now exists (String ch piece), pieces.
Qed.

Lemma concat_cons (sep x : string) (y : string) (l : list string) :
  String.concat sep (x :: y :: l) = (x ++ sep ++ String.concat sep (y :: l))%string.
Proof. reflexivity. Qed.

(** Joining what was split gives the string back. *)
Lemma Join_Split (s : string) (sep : Ascii.ascii) :
  strings.Join (strings.Split s sep) (String sep EmptyString) = s.
Proof.
  unfold strings.Join. induction s as [|ch rest IH]; cbn [strings.Split].
  - reflexivity.
  - destruct (Split_nonempty rest sep) as (piece & pieces & Hsplit).
    rewrite Hsplit in *.
    destruct (Ascii.eqb_spec ch sep) as [->|Hne].
    + rewrite concat_cons, IH. reflexivity.
    + destruct pieces as [|q pieces].
      * simpl in *. now rewrite IH.
      * rewrite concat_cons in *. rewrite <- IH. reflexivity.
Qed.

Lemma HasPrefix_slash (path : string) :
  strings.HasPrefix path "/" = true ->
  exists rest, path = String strings.slash rest.
Proof.
  unfold strings.HasPrefix. destruct path as [|ch rest]; [discriminate|].
  cbn [String.prefix].
  match goal with
  | |- context [Ascii.ascii_dec ?a ch] => destruct (Ascii.ascii_dec a ch) as [Heq|]
  end; [|discriminate].
  intros _. exists rest. now rewrite <- Heq.
Qed.

Lemma concat_app_prefix (sep : string) (l1 l2 : list string) :
  l1 <> [] ->
  String.prefix (String.concat sep l1) (String.concat sep (l1 ++ l2)) = true.
Proof.
  induction l1 as [|x l1 IH]; intros Hne; [now elim Hne|].
  destruct l1 as [|y l1].
  - destruct l2 as [|z l2]; simpl.
    + replace x with (x ++ "")%string at 2 by (clear; induction x; simpl; congruence).
      apply prefix_app_same.
    + apply prefix_app_same.
  - change ((x :: y :: l1) ++ l2) with (x :: y :: (l1 ++ l2)).
    rewrite !concat_cons, !prefix_app_cancel. apply IH. discriminate.
Qed.

Lemma paths_from_prefixes (segments : list string) :
  forall slice,
    Forall (fun p => String.prefix p ("/" ++ strings.Join (slice ++ segments) "/") = true)
      (Curator.paths_from slice segments).
Proof.
  induction segments as [|seg rest IH]; intros slice; cbn [Curator.paths_from];
    constructor.
  - unfold strings.Join. rewrite prefix_app_cancel.
    change (slice ++ seg :: rest) with (slice ++ [seg] ++ rest).
    rewrite app_assoc. apply concat_app_prefix. now destruct slice.
  - specialize (IH (slice ++ [seg])). rewrite <- app_assoc in IH. exact IH.
Qed.

Lemma paths_from_last (segments : list string) :
  forall slice d,
    segments <> [] ->
    last (Curator.paths_from slice segments) d =
    ("/" ++ strings.Join (slice ++ segments) "/")%string.
Proof.
  induction segments as [|seg rest IH]; intros slice d Hne; [now elim Hne|].
  destruct rest as [|seg' rest].
  - reflexivity.
  - change (Curator.paths_from slice (seg :: seg' :: rest))
      with (("/" ++ strings.Join (slice ++ [seg]) "/")%string
              :: Curator.paths_from (slice ++ [seg]) (seg' :: rest)).
    change (last (?x :: Curator.paths_from (slice ++ [seg]) (seg' :: rest)) d)
      with (last (Curator.paths_from (slice ++ [seg]) (seg' :: rest)) d).
    rewrite IH by discriminate. now rewrite <- app_assoc.
Qed.

Lemma ancestors_unfold (rest : string) :
  Curator.ancestors (String strings.slash rest) =
  Curator.paths_from [] (strings.Split rest strings.slash).
Proof.
  unfold Curator.ancestors. cbn [strings.Split]. now rewrite Ascii.eqb_refl.
Qed.

(** The node paths of a path that starts with a slash: each is a prefix of
    the path, and the last one is the path. *)
Lemma ancestors_of_valid_path (path : string) :
  strings.HasPrefix path "/" = true ->
  Forall (fun p => String.prefix p path = true) (Curator.ancestors path) /\
  last (Curator.ancestors path) "" = path /\
  Curator.ancestors path <> [].
Proof.
  intros Hvalid. destruct (HasPrefix_slash path Hvalid) as [rest ->].
  rewrite ancestors_unfold.
  pose proof (Join_Split rest strings.slash) as Hjoin.
  change (String strings.slash EmptyString) with "/" in Hjoin.
  destruct (Split_nonempty rest strings.slash) as (piece & pieces & Hsplit).
  split; [|split].
  - pose proof (paths_from_prefixes (strings.Split rest strings.slash) []) as Hall.
    cbn [app] in Hall. rewrite Hjoin in Hall. exact Hall.
  - rewrite paths_from_last by (rewrite Hsplit; discriminate).
    cbn [app]. rewrite Hjoin. reflexivity.
  - rewrite Hsplit. discriminate.
Qed.

(* ------------------------------------------------------------------ *)
(** * Client.CreatePath *)

Section CreatePathRuns.
Context {S : Type} `{Curator.ZkConn S}.
Variables (data : list Byte.byte) (acl : list Curator.ACL).

Lemma CreatePath_loop_protocol (segments : list string) :
  forall (slice : list string) (c : Curator.Client S),
  exists err c' ks,
    Curator.CreatePath_loop segments slice data acl c = (err, c') /\
    Curator.calls c' = Curator.calls c ++ ks /\
    Curator.protocol data acl (Curator.paths_from slice segments) ks err.
Proof.
  induction segments as [|seg rest IH]; intros slice c.
  - exists None, c, []. simpl. rewrite app_nil_r. repeat split. constructor.
  - cbn [Curator.CreatePath_loop Curator.paths_from]. unfold Curator.Exists.
    set (segment := ("/" ++ strings.Join (slice ++ [seg]) "/")%string).
    destruct (Curator.conn_Exists segment (Curator.zk c)) as [[found [e|]] s1].
    + eexists. eexists. exists [Curator.CallExists segment found (Some e)].
      split; [reflexivity|]. split; [reflexivity|]. constructor.
    + destruct found; cbn [Bool.eqb].
      * match goal with
        | |- context [Curator.CreatePath_loop rest _ data acl ?c1] =>
            destruct (IH (slice ++ [seg]) c1) as (err & c' & ks & HL & Hcalls & Hp)
        end.
        exists err, c', (Curator.CallExists segment true None :: ks).
        split; [exact HL|]. split.
        -- rewrite Hcalls. simpl. now rewrite <- app_assoc.
        -- now constructor.
      * unfold Curator.Create. cbn [Curator.zk Curator.calls].
        destruct (Curator.conn_Create segment data 0 acl s1) as [[e|] s2].
        -- eexists. eexists.
           exists [Curator.CallExists segment false None;
                   Curator.CallCreate segment data 0 acl (Some e)].
           split; [reflexivity|]. split; [simpl; now rewrite <- app_assoc|].
           constructor.
        -- match goal with
           | |- context [Curator.CreatePath_loop rest _ data acl ?c2] =>
               destruct (IH (slice ++ [seg]) c2) as (err & c' & ks & HL & Hcalls & Hp)
           end.
           exists err, c',
             (Curator.CallExists segment false None
                :: Curator.CallCreate segment data 0 acl None :: ks).
           split; [exact HL|]. split.
           ++ rewrite Hcalls. simpl. now rewrite <- !app_assoc.
           ++ now constructor.
Qed.

Lemma CreatePath_valid (path : string) (c : Curator.Client S) :
  strings.HasPrefix path "/" = true ->
  Curator.CreatePath path data acl c =
  Returned (Curator.CreatePath_loop (tl (strings.Split path strings.slash)) [] data acl c).
Proof.
  intros Hvalid. unfold Curator.CreatePath. rewrite Hvalid. cbn [negb].
  destruct (Split_nonempty path strings.slash) as (piece & pieces & Hsplit).
  rewrite Hsplit, go_slice_suffix.
  - reflexivity.
  - unfold go_len. cbn [List.length]. lia.
Qed.

Lemma CreatePath_invalid (path : string) (c : Curator.Client S) :
  strings.HasPrefix path "/" = false ->
  Curator.CreatePath path data acl c = Returned (Some Curator.ErrInvalidPath, c).
Proof. intros Hinvalid. unfold Curator.CreatePath. now rewrite Hinvalid. Qed.

(** A valid path: the run follows the protocol over the path's node
    paths. *)
Lemma CreatePath_protocol (path : string) (c : Curator.Client S) :
  strings.HasPrefix path "/" = true ->
  exists err c' ks,
    Curator.CreatePath path data acl c = Returned (err, c') /\
    Curator.calls c' = Curator.calls c ++ ks /\
    Curator.protocol data acl (Curator.ancestors path) ks err.
Proof.
  intros Hvalid. rewrite (CreatePath_valid path c Hvalid).
  destruct (CreatePath_loop_protocol (tl (strings.Split path strings.slash)) [] c)
    as (err & c' & ks & HL & Hcalls & Hp).
  exists err, c', ks. rewrite HL. auto.
Qed.

End CreatePathRuns.

Lemma protocol_probed data acl ps ks r :
  Curator.protocol data acl ps ks r ->
  (exists n, Curator.probed ks = firstn n ps) /\
  (r = None -> Curator.probed ks = ps).
Proof.
  induction 1 as [|p ps ks r Hp [[n Hn] Hall]|p ps ks r Hp [[n Hn] Hall]
                 |p ps found e|p ps e]; simpl.
  - split; [now exists 0%nat|reflexivity].
  - split; [exists (Datatypes.S n); simpl; now rewrite Hn|].
    intros Hr. now rewrite (Hall Hr).
  - split; [exists (Datatypes.S n); simpl; now rewrite Hn|].
    intros Hr. now rewrite (Hall Hr).
  - split; [now exists 1%nat|discriminate].
  - split; [now exists 1%nat|discriminate].
Qed.

Lemma protocol_errors data acl ps ks r :
  Curator.protocol data acl ps ks r ->
  match r with
  | None => Forall (fun k => Curator.call_error k = None) ks
  | Some e =>
      exists before last,
        ks = before ++ [last] /\
        Forall (fun k => Curator.call_error k = None) before /\
        Curator.call_error last = Some e
  end.
Proof.
  induction 1 as [|p ps ks r Hp IH|p ps ks r Hp IH|p ps found e|p ps e].
  - constructor.
  - destruct r as [e|].
    + destruct IH as (before & last & -> & Hok & Hlast).
      exists (Curator.CallExists p true None :: before), last.
      repeat split; try assumption. now constructor.
    + now constructor.
  - destruct r as [e|].
    + destruct IH as (before & last & -> & Hok & Hlast).
      exists (Curator.CallExists p false None
                :: Curator.CallCreate p data 0 acl None :: before), last.
      repeat split; try assumption. repeat constructor. exact Hok.
    + repeat constructor. exact IH.
  - exists [], (Curator.CallExists p found (Some e)). repeat split. constructor.
  - exists [Curator.CallExists p false None], (Curator.CallCreate p data 0 acl (Some e)).
    repeat split. repeat constructor.
Qed.

Lemma protocol_creates data acl ps ks r :
  Curator.protocol data acl ps ks r ->
  forall before k after,
    ks = before ++ k :: after ->
    Curator.is_create k = true ->
    exists before' p e,
      before = before' ++ [Curator.CallExists p false None] /\
      k = Curator.CallCreate p data 0 acl e.
Proof.
  induction 1 as [|p ps ks r Hp IH|p ps ks r Hp IH|p ps found e|p ps e];
    intros before k after Hks Hk.
  - now destruct before.
  - destruct before as [|b before]; simpl in Hks; injection Hks as Hb Hks.
    + subst k. discriminate.
    + subst b. destruct (IH before k after Hks Hk) as (before' & q & e & -> & ->).
      now exists (Curator.CallExists p true None :: before'), q, e.
  - destruct before as [|b before]; simpl in Hks; injection Hks as Hb Hks.
    + subst k. discriminate.
    + subst b. destruct before as [|b before]; simpl in Hks; injection Hks as Hb Hks.
      * subst k. now exists [], p, None.
      * subst b. destruct (IH before k after Hks Hk) as (before' & q & e & -> & ->).
        now exists (Curator.CallExists p false None
                      :: Curator.CallCreate p data 0 acl None :: before'), q, e.
  - destruct before as [|b before]; simpl in Hks; injection Hks as Hb Hks.
    + subst k. discriminate.
    + now destruct before.
  - destruct before as [|b before]; simpl in Hks; injection Hks as Hb Hks.
    + subst k. discriminate.
    + subst b. destruct before as [|b before]; simpl in Hks; injection Hks as Hb Hks.
      * subst k. now exists [], p, (Some e).
      * now destruct before.
Qed.

Lemma Forall_firstn_of {A : Type} (P : A -> Prop) (n : nat) (l : list A) :
  Forall P l -> Forall P (firstn n l).
Proof.
  intros Hl. apply Forall_forall. intros x Hx.
  rewrite Forall_forall in Hl. apply Hl. now apply (In_firstn x n l).
Qed.

(** X13: [CreatePath] never panics, and a path that does not start with a
    slash is refused with [ErrInvalidPath] before any call reaches the
    store. *)
Theorem CreatePath_refuses_relative_path {S : Type} `{Curator.ZkConn S}
  (path : string) (data : list Byte.byte) (acl : list Curator.ACL)
  (c : Curator.Client S) :
  exists err c',
    Curator.CreatePath path data acl c = Returned (err, c') /\
    (strings.HasPrefix path "/" = false ->
     err = Some Curator.ErrInvalidPath /\ c' = c).
Proof.
  destruct (strings.HasPrefix path "/") eqn:Hvalid.
  - destruct (CreatePath_protocol data acl path c Hvalid) as (err & c' & ks & HC & _).
    exists err, c'. split; [exact HC|discriminate].
  - exists (Some Curator.ErrInvalidPath), c.
    split; [now apply CreatePath_invalid|auto].
Qed.

(** X14: on a path that starts with a slash, the paths [CreatePath] probes
    are all prefixes of the path, outermost first; when it returns nil it
    has probed every node path of the path, the last one being the path
    itself. *)
Theorem CreatePath_probes_ancestors {S : Type} `{Curator.ZkConn S}
  (path : string) (data : list Byte.byte) (acl : list Curator.ACL)
  (c : Curator.Client S) :
  strings.HasPrefix path "/" = true ->
  exists err c' ks,
    Curator.CreatePath path data acl c = Returned (err, c') /\
    Curator.calls c' = Curator.calls c ++ ks /\
    Forall (fun p => String.prefix p path = true) (Curator.probed ks) /\
    (err = None ->
     Curator.probed ks = Curator.ancestors path /\
     last (Curator.probed ks) "" = path).
Proof.
  intros Hvalid.
  destruct (CreatePath_protocol data acl path c Hvalid) as (err & c' & ks & HC & Hcalls & Hp).
  destruct (ancestors_of_valid_path path Hvalid) as (Hprefix & Hlast & _).
  destruct (protocol_probed _ _ _ _ _ Hp) as [[n Hn] Hall].
  exists err, c', ks. split; [exact HC|]. split; [exact Hcalls|]. split.
  - rewrite Hn. now apply Forall_firstn_of.
  - intros Herr. rewrite (Hall Herr). auto.
Qed.

Lemma CreatePath_probes_ancestors_witness :
  exists err c' ks,
    Curator.CreatePath "/a/b/c" [] []
      (Curator.Mem.connect {| Curator.Mem.paths := ["/a"]; Curator.Mem.up := true |}) =
    Returned (err, c') /\
    Curator.calls c' = [] ++ ks /\
    Forall (fun p => String.prefix p "/a/b/c" = true) (Curator.probed ks) /\
    (err = None ->
     Curator.probed ks = Curator.ancestors "/a/b/c" /\
     last (Curator.probed ks) "" = "/a/b/c").
Proof.
  apply (CreatePath_probes_ancestors "/a/b/c" [] []
           (Curator.Mem.connect {| Curator.Mem.paths := ["/a"]; Curator.Mem.up := true |})).
  reflexivity.
Defined.

(** X15: [CreatePath] stops at the first call that fails and returns that
    call's error: when it returns nil no call failed, and when it returns
    an error that error is the last call's, every call before it having
    succeeded. *)
Theorem CreatePath_stops_at_first_failure {S : Type} `{Curator.ZkConn S}
  (path : string) (data : list Byte.byte) (acl : list Curator.ACL)
  (c : Curator.Client S) :
  strings.HasPrefix path "/" = true ->
  exists err c' ks,
    Curator.CreatePath path data acl c = Returned (err, c') /\
    Curator.calls c' = Curator.calls c ++ ks /\
    match err with
    | None => Forall (fun k => Curator.call_error k = None) ks
    | Some e =>
        exists before last,
          ks = before ++ [last] /\
          Forall (fun k => Curator.call_error k = None) before /\
          Curator.call_error last = Some e
    end.
Proof.
  intros Hvalid.
  destruct (CreatePath_protocol data acl path c Hvalid) as (err & c' & ks & HC & Hcalls & Hp).
  exists err, c', ks. split; [exact HC|]. split; [exact Hcalls|].
  exact (protocol_errors _ _ _ _ _ Hp).
Qed.

Lemma CreatePath_stops_at_first_failure_witness :
  exists c',
    Curator.CreatePath "/a/b/c" [] []
      (Curator.Mem.connect {| Curator.Mem.paths := ["/a"]; Curator.Mem.up := false |}) =
    Returned (Some (Curator.ErrConn Disconnected), c') /\
    Curator.calls c' =
    [Curator.CallExists "/a" false (Some (Curator.ErrConn Disconnected))].
Proof.
  destruct (CreatePath_stops_at_first_failure "/a/b/c" [] []
              (Curator.Mem.connect {| Curator.Mem.paths := ["/a"]; Curator.Mem.up := false |}))
    as (err & c' & ks & HC & Hcalls & _).
  - reflexivity.
  - vm_compute in HC. injection HC as Herr Hc. subst err c'.
    eexists. split; reflexivity.
Defined.

(** X16: [CreatePath] creates a node only right after it has probed that
    very path and seen it absent, and always as a node without flags
    (persistent) carrying the caller's data and acl. *)
Theorem CreatePath_creates_what_it_saw_absent {S : Type} `{Curator.ZkConn S}
  (path : string) (data : list Byte.byte) (acl : list Curator.ACL)
  (c : Curator.Client S) :
  strings.HasPrefix path "/" = true ->
  exists err c' ks,
    Curator.CreatePath path data acl c = Returned (err, c') /\
    Curator.calls c' = Curator.calls c ++ ks /\
    forall before k after,
      ks = before ++ k :: after ->
      Curator.is_create k = true ->
      exists before' p e,
        before = before' ++ [Curator.CallExists p false None] /\
        k = Curator.CallCreate p data 0 acl e.
Proof.
  intros Hvalid.
  destruct (CreatePath_protocol data acl path c Hvalid) as (err & c' & ks & HC & Hcalls & Hp).
  exists err, c', ks. split; [exact HC|]. split; [exact Hcalls|].
  exact (protocol_creates _ _ _ _ _ Hp).
Qed.

Lemma CreatePath_creates_what_it_saw_absent_witness :
  exists err c' ks,
    Curator.CreatePath "/a/b" [] []
      (Curator.Mem.connect {| Curator.Mem.paths := ["/a"]; Curator.Mem.up := true |}) =
    Returned (err, c') /\
    Curator.calls c' = [] ++ ks /\
    forall before k after,
      ks = before ++ k :: after ->
      Curator.is_create k = true ->
      exists before' p e,
        before = before' ++ [Curator.CallExists p false None] /\
        k = Curator.CallCreate p [] 0 [] e.
Proof.
  apply (CreatePath_creates_what_it_saw_absent "/a/b" [] []
           (Curator.Mem.connect {| Curator.Mem.paths := ["/a"]; Curator.Mem.up := true |})).
  reflexivity.
Defined.

(* ------------------------------------------------------------------ *)
(** * CreatePath against a store that answers truthfully *)

Section HealthyStore.
Context {S : Type} `{Curator.ZkConn S}.
Variables (up : S -> bool) (holds : S -> string -> bool).
Variables (data : list Byte.byte) (acl : list Curator.ACL).

Lemma CreatePath_loop_only_probes (segments : list string) :
  Curator.truthful_Exists up holds ->
  forall (slice : list string) (c : Curator.Client S),
    up (Curator.zk c) = true ->
    Forall (fun p => holds (Curator.zk c) p = true) (Curator.paths_from slice segments) ->
    exists c',
      Curator.CreatePath_loop segments slice data acl c = (None, c') /\
      Curator.zk c' = Curator.zk c /\
      Curator.calls c' =
      Curator.calls c ++
      map (fun p => Curator.CallExists p true None) (Curator.paths_from slice segments).
Proof.
  intros HE. induction segments as [|seg rest IH]; intros slice c Hup Hall.
  - exists c. simpl. now rewrite app_nil_r.
  - cbn [Curator.paths_from] in Hall.
    cbn [Curator.CreatePath_loop Curator.paths_from]. unfold Curator.Exists.
    set (segment := ("/" ++ strings.Join (slice ++ [seg]) "/")%string) in *.
    inversion Hall as [|p ps Hseg Hrest]; subst.
    rewrite (HE segment _ Hup), Hseg. cbn [Bool.eqb].
    match goal with
    | |- context [Curator.CreatePath_loop rest _ data acl ?c1] =>
        destruct (IH (slice ++ [seg]) c1) as (c' & HL & Hzk & Hcalls);
          [exact Hup|exact Hrest|]
    end.
    exists c'. split; [exact HL|]. split; [exact Hzk|].
    rewrite Hcalls. simpl. now rewrite <- app_assoc.
Qed.

End HealthyStore.

Lemma Mem_truthful : Curator.truthful_Exists Curator.Mem.up Curator.Mem.holds.
Proof. intros p s Hup. simpl. unfold Curator.Mem.mem_Exists. now rewrite Hup. Qed.

Lemma Split_single (sep : Ascii.ascii) (a : string) :
  Curator.contains sep a = false -> strings.Split a sep = [a].
Proof.
  induction a as [|ch a IH]; cbn [Curator.contains strings.Split]; intros Ha.
  - reflexivity.
  - apply orb_false_iff in Ha. destruct Ha as [Hch Ha].
    rewrite Hch, (IH Ha). reflexivity.
Qed.

Lemma Split_app_sep (sep : Ascii.ascii) (a b : string) :
  Curator.contains sep a = false ->
  strings.Split (a ++ String sep b) sep = a :: strings.Split b sep.
Proof.
  induction a as [|ch a IH]; cbn [Curator.contains strings.Split String.append];
    intros Ha.
  - now rewrite Ascii.eqb_refl.
  - apply orb_false_iff in Ha. destruct Ha as [Hch Ha].
    rewrite Hch, (IH Ha). reflexivity.
Qed.

(** Splitting what was joined gives the pieces back, when no piece holds
    the separator. *)
Lemma Split_Join (sep : Ascii.ascii) (pieces : list string) :
  pieces <> [] ->
  forallb (fun x => negb (Curator.contains sep x)) pieces = true ->
  strings.Split (strings.Join pieces (String sep EmptyString)) sep = pieces.
Proof.
  unfold strings.Join. induction pieces as [|x rest IH]; intros Hne Hall;
    [now elim Hne|].
  cbn [forallb] in Hall. apply andb_true_iff in Hall. destruct Hall as [Hx Hrest].
  apply negb_true_iff in Hx.
  destruct rest as [|y rest].
  - simpl. now apply Split_single.
  - rewrite concat_cons.
    change (String sep EmptyString ++ String.concat (String sep EmptyString) (y :: rest))%string
      with (String sep (String.concat (String sep EmptyString) (y :: rest))).
    rewrite (Split_app_sep sep x _ Hx), IH; [reflexivity|discriminate|exact Hrest].
Qed.

Lemma Split_pieces_no_sep (sep : Ascii.ascii) (s : string) :
  forallb (fun x => negb (Curator.contains sep x)) (strings.Split s sep) = true.
Proof.
  induction s as [|ch rest IH]; cbn [strings.Split].
  - reflexivity.
  - destruct (Ascii.eqb ch sep) eqn:Hch.
    + cbn [forallb Curator.contains negb andb]. exact IH.
    + destruct (strings.Split rest sep) as [|piece pieces].
      * cbn [forallb Curator.contains]. now rewrite Hch.
      * cbn [forallb Curator.contains] in *. now rewrite Hch.
Qed.

Lemma names_have_no_slash (pieces : list string) :
  forallb Curator.name_ok pieces = true ->
  forallb (fun x => negb (Curator.contains strings.slash x)) pieces = true.
Proof.
  induction pieces as [|x rest IH]; cbn [forallb]; [reflexivity|].
  intros Hall. apply andb_true_iff in Hall. destruct Hall as [Hx Hrest].
  unfold Curator.name_ok in Hx. apply andb_true_iff in Hx. destruct Hx as [_ Hx].
  now rewrite Hx, IH.
Qed.

Lemma names_are_not_empty (pieces : list string) :
  forallb Curator.name_ok pieces = true ->
  forallb (fun seg => negb (String.eqb seg "")) pieces = true.
Proof.
  induction pieces as [|x rest IH]; cbn [forallb]; [reflexivity|].
  intros Hall. apply andb_true_iff in Hall. destruct Hall as [Hx Hrest].
  unfold Curator.name_ok in Hx. apply andb_true_iff in Hx. destruct Hx as [Hx _].
  now rewrite Hx, IH.
Qed.

Lemma proper_names (pieces : list string) :
  forallb (fun seg => negb (String.eqb seg "")) pieces = true ->
  forallb (fun x => negb (Curator.contains strings.slash x)) pieces = true ->
  forallb Curator.name_ok pieces = true.
Proof.
  induction pieces as [|x rest IH]; cbn [forallb]; [reflexivity|].
  intros H1 H2. apply andb_true_iff in H1. apply andb_true_iff in H2.
  destruct H1 as [Hx1 Hr1]. destruct H2 as [Hx2 Hr2].
  rewrite (IH Hr1 Hr2). unfold Curator.name_ok. now rewrite Hx1, Hx2.
Qed.

Lemma node_path_unfold (pieces : list string) :
  Curator.node_path pieces = String strings.slash (String.concat "/" pieces).
Proof. reflexivity. Qed.

Lemma pieces_of_node_path (pieces : list string) :
  pieces <> [] -> forallb Curator.name_ok pieces = true ->
  Curator.Tree.pieces_of (Curator.node_path pieces) = pieces.
Proof.
  intros Hne Hall. unfold Curator.Tree.pieces_of. rewrite node_path_unfold.
  cbn [strings.Split]. rewrite Ascii.eqb_refl. cbn [tl].
  apply (Split_Join strings.slash pieces Hne). now apply names_have_no_slash.
Qed.

Lemma node_path_is_not_root (pieces : list string) :
  pieces <> [] -> forallb Curator.name_ok pieces = true ->
  String.eqb (Curator.node_path pieces) "/" = false.
Proof.
  intros Hne Hall. apply String.eqb_neq. intros Heq.
  pose proof (pieces_of_node_path pieces Hne Hall) as Hp.
  rewrite Heq in Hp. vm_compute in Hp. subst pieces. discriminate.
Qed.

Lemma node_path_well_formed (pieces : list string) :
  pieces <> [] -> forallb Curator.name_ok pieces = true ->
  Curator.Tree.well_formed (Curator.node_path pieces) = true.
Proof.
  intros Hne Hall. unfold Curator.Tree.well_formed.
  rewrite (pieces_of_node_path pieces Hne Hall), (names_are_not_empty pieces Hall).
  rewrite andb_true_r. unfold strings.HasPrefix. rewrite node_path_unfold.
  apply (prefix_app_same "/" (String.concat "/" pieces)).
Qed.

Lemma Tree_answers : Curator.answers_nodes Curator.Tree.up Curator.Tree.holds.
Proof.
  intros pieces s Hup Hne Hall. simpl. unfold Curator.Tree.tree_Exists.
  now rewrite Hup, (node_path_is_not_root pieces Hne Hall),
    (node_path_well_formed pieces Hne Hall).
Qed.

Lemma Tree_accepts : Curator.accepts_children Curator.Tree.up Curator.Tree.holds.
Proof.
  intros front name d f a s Hup Hall Hparent Habsent. simpl.
  unfold Curator.Tree.tree_Create.
  assert (Hne : front ++ [name] <> []) by (now destruct front).
  rewrite Hup, (node_path_is_not_root _ Hne Hall), (node_path_well_formed _ Hne Hall).
  cbn [negb]. rewrite Habsent.
  assert (Hheld : Curator.Tree.parent_held s (Curator.node_path (front ++ [name])) = true).
  { unfold Curator.Tree.parent_held.
    rewrite (pieces_of_node_path _ Hne Hall), removelast_last.
    destruct front as [|x front]; [reflexivity|].
    destruct Hparent as [Hnil|Hheld]; [discriminate|exact Hheld]. }
  rewrite Hheld. eexists. split; [reflexivity|]. split; [reflexivity|].
  unfold Curator.Tree.holds. simpl. split.
  - rewrite existsb_app. simpl. rewrite String.eqb_refl. now rewrite orb_true_r.
  - intros q Hq. rewrite existsb_app, Hq. reflexivity.
Qed.

Section HierarchicalStore.
Context {S : Type} `{Curator.ZkConn S}.
Variables (ready : S -> bool) (holds : S -> string -> bool).
Variables (data : list Byte.byte) (acl : list Curator.ACL).

Lemma CreatePath_loop_makes_all (segments : list string) :
  Curator.answers_nodes ready holds -> Curator.accepts_children ready holds ->
  forall (slice : list string) (c : Curator.Client S),
    ready (Curator.zk c) = true ->
    forallb Curator.name_ok (slice ++ segments) = true ->
    slice = [] \/ holds (Curator.zk c) (Curator.node_path slice) = true ->
    exists c',
      Curator.CreatePath_loop segments slice data acl c = (None, c') /\
      ready (Curator.zk c') = true /\
      Forall (fun p => holds (Curator.zk c') p = true)
        (Curator.paths_from slice segments) /\
      (forall q, holds (Curator.zk c) q = true -> holds (Curator.zk c') q = true).
Proof.
  intros HE HC. induction segments as [|seg rest IH]; intros slice c Hready Hnames Hparent.
  - exists c. simpl. auto.
  - cbn [Curator.CreatePath_loop Curator.paths_from]. unfold Curator.Exists.
    fold (Curator.node_path (slice ++ [seg])).
    assert (Hhere : forallb Curator.name_ok (slice ++ [seg]) = true).
    { rewrite forallb_app in *. cbn [forallb] in *.
      apply andb_true_iff in Hnames. destruct Hnames as [Hs Hr].
      apply andb_true_iff in Hr. destruct Hr as [Hseg _].
      now rewrite Hs, Hseg. }
    assert (Hnext : forallb Curator.name_ok ((slice ++ [seg]) ++ rest) = true).
    { now rewrite <- app_assoc. }
    assert (Hne : slice ++ [seg] <> []) by (now destruct slice).
    rewrite (HE (slice ++ [seg]) _ Hready Hne Hhere).
    destruct (holds (Curator.zk c) (Curator.node_path (slice ++ [seg]))) eqn:Hseg;
      cbn [Bool.eqb].
    + match goal with
      | |- context [Curator.CreatePath_loop rest _ data acl ?c1] =>
          destruct (IH (slice ++ [seg]) c1) as (c' & HL & Hready' & Hall & Hmono);
            [exact Hready|exact Hnext|right; exact Hseg|]
      end.
      exists c'. split; [exact HL|]. split; [exact Hready'|]. split; [|exact Hmono].
      constructor; [|exact Hall]. now apply Hmono.
    + unfold Curator.Create. cbn [Curator.zk Curator.calls].
      destruct (HC slice seg data 0 acl (Curator.zk c) Hready Hhere Hparent Hseg)
        as (s' & HCr & Hready1 & Hnew & Hkeep).
      rewrite HCr.
      match goal with
      | |- context [Curator.CreatePath_loop rest _ data acl ?c2] =>
          destruct (IH (slice ++ [seg]) c2) as (c' & HL & Hready' & Hall & Hmono);
            [exact Hready1|exact Hnext|right; exact Hnew|]
      end.
      exists c'. split; [exact HL|]. split; [exact Hready'|]. split.
      * constructor; [|exact Hall]. now apply Hmono.
      * intros q Hq. apply Hmono. simpl. now apply Hkeep.
Qed.

End HierarchicalStore.

(** X17: against a hierarchical store that is ready, answers [Exists]
    truthfully for node paths made of proper names, and accepts the
    [Create] of an absent node under a parent it holds (or right under the
    root), [CreatePath] of a path that starts with a slash and has no
    empty name in it returns nil, and afterwards the store holds the path
    and every node path on the way to it, besides all it held before (as
    [mkdir -p] does): each node is asked for after its parent. *)
Theorem CreatePath_makes_every_ancestor {S : Type} `{Curator.ZkConn S}
  (ready : S -> bool) (holds : S -> string -> bool) (path : string)
  (data : list Byte.byte) (acl : list Curator.ACL) (c : Curator.Client S) :
  Curator.answers_nodes ready holds -> Curator.accepts_children ready holds ->
  ready (Curator.zk c) = true ->
  strings.HasPrefix path "/" = true ->
  forallb (fun seg => negb (String.eqb seg ""))
    (tl (strings.Split path strings.slash)) = true ->
  exists c',
    Curator.CreatePath path data acl c = Returned (None, c') /\
    holds (Curator.zk c') path = true /\
    Forall (fun p => holds (Curator.zk c') p = true) (Curator.ancestors path) /\
    (forall q, holds (Curator.zk c) q = true -> holds (Curator.zk c') q = true).
Proof.
  intros HE HC Hready Hvalid Hnames. rewrite (CreatePath_valid data acl path c Hvalid).
  assert (Hok : forallb Curator.name_ok ([] ++ tl (strings.Split path strings.slash)) = true).
  { apply proper_names; [exact Hnames|].
    pose proof (Split_pieces_no_sep strings.slash path) as Hall.
    destruct (strings.Split path strings.slash) as [|x rest]; [reflexivity|].
    cbn [forallb] in Hall. apply andb_true_iff in Hall. now destruct Hall. }
  destruct (CreatePath_loop_makes_all ready holds data acl
              (tl (strings.Split path strings.slash)) HE HC [] c Hready Hok
              (or_introl eq_refl))
    as (c' & HL & _ & Hall & Hmono).
  exists c'. rewrite HL. split; [reflexivity|]. split; [|split; assumption].
  destruct (ancestors_of_valid_path path Hvalid) as (_ & Hlast & Hne).
  fold (Curator.ancestors path) in Hall.
  rewrite Forall_forall in Hall. apply Hall.
  destruct (exists_last Hne) as (front & p & Heq).
  rewrite Heq in *. rewrite last_last in Hlast. subst p.
  apply in_or_app. right. now left.
Qed.

Lemma CreatePath_makes_every_ancestor_witness :
  exists c',
    Curator.CreatePath "/a/b/c" [] []
      (Curator.Tree.connect {| Curator.Tree.nodes := ["/a"]; Curator.Tree.up := true |}) =
    Returned (None, c') /\
    Curator.Tree.holds (Curator.zk c') "/a/b/c" = true /\
    Curator.Tree.nodes (Curator.zk c') = ["/a"; "/a/b"; "/a/b/c"].
Proof.
  destruct (CreatePath_makes_every_ancestor Curator.Tree.up Curator.Tree.holds "/a/b/c" [] []
              (Curator.Tree.connect
                 {| Curator.Tree.nodes := ["/a"]; Curator.Tree.up := true |})
              Tree_answers Tree_accepts eq_refl eq_refl eq_refl)
    as (c' & HC & Hpath & _).
  exists c'. split; [exact HC|]. split; [exact Hpath|].
  vm_compute in HC. injection HC as Hc. now subst c'.
Defined.

(** On the hierarchical store, a path with an empty name is outside the
    property: the trailing slash of ["/a/"] makes the second probe fail,
    after ["/a"] has been created; and a node is refused when its parent is
    missing. *)
Example CreatePath_trailing_slash :
  Curator.CreatePath "/a/" [] []
    (Curator.Tree.connect {| Curator.Tree.nodes := []; Curator.Tree.up := true |}) =
  Returned
    (Some (Curator.ErrConn OtherStoreError),
     {| Curator.zk := {| Curator.Tree.nodes := ["/a"]; Curator.Tree.up := true |};
        Curator.calls :=
          [Curator.CallExists "/a" false None;
           Curator.CallCreate "/a" [] 0 [] None;
           Curator.CallExists "/a/" false (Some (Curator.ErrConn OtherStoreError))] |}) /\
  fst (Curator.Tree.tree_Create "/x/y" [] 0 []
         {| Curator.Tree.nodes := []; Curator.Tree.up := true |}) =
  Some (Curator.ErrConn OtherStoreError).
Proof. split; vm_compute; reflexivity. Qed.

(** X18: when the store already holds every node path of the path,
    [CreatePath] only probes: it returns nil after one successful [Exists]
    per node path, issues no [Create], and leaves the store as it was; so a
    second [CreatePath] of the same path changes nothing. *)
Theorem CreatePath_again_only_probes {S : Type} `{Curator.ZkConn S}
  (up : S -> bool) (holds : S -> string -> bool) (path : string)
  (data : list Byte.byte) (acl : list Curator.ACL) (c : Curator.Client S) :
  Curator.truthful_Exists up holds ->
  up (Curator.zk c) = true ->
  strings.HasPrefix path "/" = true ->
  Forall (fun p => holds (Curator.zk c) p = true) (Curator.ancestors path) ->
  exists c',
    Curator.CreatePath path data acl c = Returned (None, c') /\
    Curator.zk c' = Curator.zk c /\
    Curator.calls c' =
    Curator.calls c ++
    map (fun p => Curator.CallExists p true None) (Curator.ancestors path).
Proof.
  intros HE Hup Hvalid Hall. rewrite (CreatePath_valid data acl path c Hvalid).
  destruct (CreatePath_loop_only_probes up holds data acl
              (tl (strings.Split path strings.slash)) HE [] c Hup Hall)
    as (c' & HL & Hzk & Hcalls).
  exists c'. rewrite HL. auto.
Qed.

Lemma CreatePath_again_only_probes_witness :
  exists c',
    Curator.CreatePath "/a/b" [] []
      (Curator.Mem.connect {| Curator.Mem.paths := ["/a"; "/a/b"]; Curator.Mem.up := true |}) =
    Returned (None, c') /\
    Curator.zk c' = {| Curator.Mem.paths := ["/a"; "/a/b"]; Curator.Mem.up := true |} /\
    Curator.calls c' =
    [Curator.CallExists "/a" true None; Curator.CallExists "/a/b" true None].
Proof.
  apply (CreatePath_again_only_probes Curator.Mem.up Curator.Mem.holds "/a/b" [] []
           (Curator.Mem.connect
              {| Curator.Mem.paths := ["/a"; "/a/b"]; Curator.Mem.up := true |})
           Mem_truthful eq_refl eq_refl).
  repeat constructor.
Defined.

(* ------------------------------------------------------------------ *)
(** * Client.WaitToExist *)

Section Waiting.
Context {S : Type} `{Curator.ZkConn S}.
Variable path : string.

Lemma Retry_operation_probes (grants : nat) :
  forall (c : Curator.Client S) (retryCount : Z),
  exists r c' n' misses last,
    Curator.Retry (Curator.operation path) grants (c, retryCount) = (r, (c', n')) /\
    Curator.calls c' = Curator.calls c ++ misses ++ [last] /\
    Forall (Curator.is_miss path) misses /\
    (List.length misses <= grants)%nat /\
    (exists found err, last = Curator.CallExists path found err) /\
    ((List.length misses < grants)%nat -> last = Curator.CallExists path true None) /\
    n' = retryCount + Z.of_nat (List.length misses) + 1.
Proof.
  induction grants as [|g IH]; intros c retryCount;
    cbn [Curator.Retry]; unfold Curator.operation at 1; unfold Curator.Exists;
    destruct (Curator.conn_Exists path (Curator.zk c)) as [[found err] s1].
  - exists (match err with
            | None => if negb found then Some Curator.ErrInvalidPath else None
            | Some e => Some e
            end).
    eexists. eexists. exists [], (Curator.CallExists path found err).
    split; [destruct err as [e|]; [|destruct found]; reflexivity|].
    simpl. repeat split; try constructor; try lia; eauto.
  - destruct err as [e|]; [|destruct found]; cbn [negb].
    + match goal with
      | |- context [Curator.Retry _ g ?st] =>
          destruct st as [c1 n1] eqn:Hst; destruct (IH c1 n1)
            as (r & c' & n' & misses & last & HR & Hcalls & Hmiss & Hlen & Hlast & Hhit & Hn)
      end.
      injection Hst as <- <-.
      exists r, c', n', (Curator.CallExists path found (Some e) :: misses), last.
      split; [exact HR|]. split; [rewrite Hcalls; simpl; now rewrite <- app_assoc|].
      split.
      { constructor; [|exact Hmiss]. exists found, (Some e). split; [reflexivity|].
        left. discriminate. }
      simpl. repeat split; try assumption; try lia.
      intros Hlt. apply Hhit. lia.
    + eexists. eexists. eexists. exists [], (Curator.CallExists path true None).
      split; [reflexivity|]. simpl. repeat split; try constructor; try lia; eauto.
    + match goal with
      | |- context [Curator.Retry _ g ?st] =>
          destruct st as [c1 n1] eqn:Hst; destruct (IH c1 n1)
            as (r & c' & n' & misses & last & HR & Hcalls & Hmiss & Hlen & Hlast & Hhit & Hn)
      end.
      injection Hst as <- <-.
      exists r, c', n', (Curator.CallExists path false None :: misses), last.
      split; [exact HR|]. split; [rewrite Hcalls; simpl; now rewrite <- app_assoc|].
      split.
      { constructor; [|exact Hmiss]. exists false, None. split; [reflexivity|].
        now right. }
      simpl. repeat split; try assumption; try lia.
      intros Hlt. apply Hhit. lia.
Qed.

End Waiting.

(** X19: [WaitToExist] returns nil whatever the store answered, also when
    the node was never seen and the back-off policy gave up. All it does is
    probe the path with [Exists]: at least once, at most once more than the
    policy grants, every probe but the last one having missed the node, and
    it stops early only on a probe that saw the node. *)
Theorem WaitToExist_always_returns_nil {S : Type} `{Curator.ZkConn S}
  (path : string) (grants : nat) (c : Curator.Client S) :
  exists c' misses last,
    Curator.WaitToExist path grants c = (None, c') /\
    Curator.calls c' = Curator.calls c ++ misses ++ [last] /\
    Forall (Curator.is_miss path) misses /\
    (List.length misses <= grants)%nat /\
    (exists found err, last = Curator.CallExists path found err) /\
    ((List.length misses < grants)%nat -> last = Curator.CallExists path true None).
Proof.
  unfold Curator.WaitToExist.
  destruct (Retry_operation_probes path grants c 0)
    as (r & c' & n' & misses & last & HR & Hcalls & Hmiss & Hlen & Hlast & Hhit & _).
  rewrite HR. exists c', misses, last. auto 10.
Qed.

(** A node that never shows up: four probes, all answering "absent", and
    nil all the same. *)
Example WaitToExist_absent_node :
  Curator.WaitToExist "/a/b" 3
    (Curator.Mem.connect {| Curator.Mem.paths := ["/a"]; Curator.Mem.up := true |}) =
  (None,
   {| Curator.zk := {| Curator.Mem.paths := ["/a"]; Curator.Mem.up := true |};
      Curator.calls := [Curator.CallExists "/a/b" false None;
                        Curator.CallExists "/a/b" false None;
                        Curator.CallExists "/a/b" false None;
                        Curator.CallExists "/a/b" false None] |}).
Proof. vm_compute. reflexivity. Qed.
